(** * nessie: the AllPlugins pipeline, Logout and newNessus

    A shallow embedding of [src/nessie.go].

    [AllPlugins] starts one goroutine per plugin family, ten workers and a
    closing goroutine, which talk over two buffered channels and two
    [sync.WaitGroup]s.  It is embedded as an executable interleaving
    semantics: a state holds the program point of every goroutine, the two
    channels and the two counters, and [step t s] runs the next atomic action
    of goroutine [t].  A run is a list of goroutine names (a schedule); what
    holds of [AllPlugins] in every run is proved for every schedule.

    The HTTP methods [PluginFamilies], [FamilyDetails] and [PluginDetails]
    are the remote side: they are taken as the fields of a record [Nessus],
    one result per ID. *)

From Stdlib Require Import ZArith Lia.
From stdpp Require Import base list strings gmap pretty.

Open Scope Z_scope.

(** ** Go values *)

(** A Go [(T, error)] result. *)
Inductive result (T E : Type) : Type :=
| Ok (v : T)
| Err (e : E).
Arguments Ok {T E} v.
Arguments Err {T E} e.

(** What one atomic action of a goroutine does: it moves to the next state,
    it cannot move now (blocked on a channel or a wait group, already
    returned, or not started), or it panics. *)
Inductive outcome (S : Type) : Type :=
| Next (s : S)
| Idle
| Panic.
Arguments Next {S} s.
Arguments Idle {S}.
Arguments Panic {S}.

(** *** Buffered channels: [make(chan A, cap)] *)
Module Chan.

Record chan (A : Type) : Type := Make {
  cap : nat;
  buf : list A;
  closed : bool
}.
Arguments Make {A} cap buf closed.
Arguments cap {A} c.
Arguments buf {A} c.
Arguments closed {A} c.

Definition make {A : Type} (n : nat) : chan A := Make n [] false.

(** [c <- x]: panics on a closed channel, blocks while the buffer is full. *)
Definition send {A : Type} (c : chan A) (x : A) : outcome (chan A) :=
  if closed c then Panic
  else if (length (buf c) <? cap c)%nat then Next (Make (cap c) (buf c ++ [x]) false)
  else Idle.

(** One receive of [for x := range c]: [Next (Some x, c')] hands out the
    oldest buffered value, [Next (None, c)] is the end of the range (closed
    and drained), [Idle] is a blocked receive. *)
Definition recv {A : Type} (c : chan A) : outcome (option A * chan A) :=
  match buf c with
  | x :: rest => Next (Some x, Make (cap c) rest (closed c))
  | [] => if closed c then Next (None, c) else Idle
  end.

(** [close(c)]: panics when the channel is closed already. *)
Definition close {A : Type} (c : chan A) : outcome (chan A) :=
  if closed c then Panic else Next (Make (cap c) (buf c) true).

End Chan.

(** *** [sync.WaitGroup]: the counter *)
Module WaitGroup.

(** [wg.Add(delta)]: panics when the counter becomes negative. *)
Definition Add (counter delta : Z) : outcome Z :=
  if counter + delta <? 0 then Panic else Next (counter + delta).

(** [wg.Done()] is [wg.Add(-1)]. *)
Definition Done (counter : Z) : outcome Z := Add counter (-1).

(** [wg.Wait()] returns once the counter is zero. *)
Definition Wait (counter : Z) : outcome unit :=
  if counter =? 0 then Next tt else Idle.

End WaitGroup.

(** ** The client: [newNessus] and [Logout] *)
Module Client.

(** [tls.Config], the two fields that [newNessus] sets. *)
Record tlsConfig : Type := {
  InsecureSkipVerify : bool;
  RootCAs : option (list string)          (* [None] is the nil pool *)
}.

(** [http.Client] with its [http.Transport]; [DialTLS] is [nil] or the
    function made by [createDialTLSFuncToVerifyFingerprint] for a list of
    fingerprints. *)
Record httpClient : Type := {
  TLSClientConfig : tlsConfig;
  DialTLS : option (list string)
}.

Record nessusImpl : Type := {
  client : httpClient;
  authCookie : string;
  apiURL : string;
  accessKey : string;
  secretKey : string;
  apiToken : string;
  verbose : bool
}.

(** A call that returns, or ends the process through [log.Fatal]. *)
Inductive exits (A : Type) : Type :=
| Return (a : A)
| Fatal.
Arguments Return {A} a.
Arguments Fatal {A}.

(** What [newNessus] asks of the machine it runs on. *)
Record OS : Type := {
  ReadFile : string -> result string string;        (* [ioutil.ReadFile] *)
  AppendCertsFromPEM : string -> bool;              (* [roots.AppendCertsFromPEM] *)
  Get : httpClient -> string -> result string string; (* [client.Get], then [io.ReadAll] *)
  FindString : string -> string                     (* [NessusAPITokenRegex.FindString] *)
}.

Definition NessusApiTokenPath : string := "nessus6.js".

Definition getApiToken (os : OS) (url : string) (c : httpClient) : exits string :=
  let nessusJs := (url ++ "/" ++ NessusApiTokenPath)%string in
  match Get os c nessusJs with
  | Err _ => Fatal
  | Ok data => Return (FindString os data)
  end.

Definition newNessus (os : OS)
    (apiURL caCertPath accessKey secretKey : string)
    (isUseApiKey ignoreSSLCertsErrors verifyCertFingerprint : bool)
    (certFingerprints : list string) : exits (result nessusImpl string) :=
  (* [roots] is still nil when [config] is built *)
  let config := {| InsecureSkipVerify := ignoreSSLCertsErrors; RootCAs := None |} in
  let finish (dialTLS : option (list string)) : exits (result nessusImpl string) :=
    let c := {| TLSClientConfig := config; DialTLS := dialTLS |} in
    match getApiToken os apiURL c with
    | Fatal => Fatal
    | Return token =>
        Return (Ok {| client := c; authCookie := ""; apiURL := apiURL;
                      accessKey := accessKey; secretKey := secretKey;
                      apiToken := token; verbose := false |})
    end in
  if negb (String.length caCertPath =? 0)%nat then
    match ReadFile os caCertPath with
    | Err err => Return (Err err)
    | Ok rootPEM =>
        if negb (AppendCertsFromPEM os rootPEM)
        then Return (Err ("could not append certs from PEM " ++ caCertPath)%string)
        else finish None
    end
  else if verifyCertFingerprint then
    if (length certFingerprints =? 0)%nat
    then Return (Err "fingerprint verification enabled, fingerprint must not be empty"%string)
    else finish (Some certFingerprints)
  else finish None.

Definition NewNessus (os : OS) (apiURL caCertPath : string) :=
  newNessus os apiURL caCertPath "" "" false false false [].

Definition NewInsecureNessus (os : OS) (apiURL : string) :=
  newNessus os apiURL "" "" "" false true false [].

Definition NewInsecureNessusWithAPICredentials (os : OS) (apiURL accessKey secretKey : string) :=
  newNessus os apiURL "" accessKey secretKey true true false [].

Definition NewFingerprintedNessus (os : OS) (apiURL : string) (certFingerprints : list string) :=
  newNessus os apiURL "" "" "" false true true certFingerprints.

(** What the client has done to the outside: the lines it logged and the
    HTTP requests it issued (method and resource). *)
Record world : Type := {
  logged : list string;
  requests : list (string * string)
}.

Definition log_Println (line : string) (w : world) : world :=
  {| logged := logged w ++ [line]; requests := requests w |}.

Definition set_authCookie (cookie : string) (n : nessusImpl) : nessusImpl :=
  {| client := client n; authCookie := cookie; apiURL := apiURL n;
     accessKey := accessKey n; secretKey := secretKey n;
     apiToken := apiToken n; verbose := verbose n |}.

Definition StatusOK : Z := 200.

(** [n.Request(method, resource, nil, wantStatus)] as [Logout] uses it: the
    error it returns, if any, and what it does to the outside. *)
Definition Request_t : Type :=
  nessusImpl -> string -> string -> list Z -> world -> option string * world.

(** [Logout] returns its error ([None] is nil), the receiver and the outside
    as it leaves them. *)
Definition Logout (Request : Request_t) (n : nessusImpl) (w : world)
    : option string * nessusImpl * world :=
  if String.eqb (authCookie n) "" then
    (None, n, log_Println "Not logged in, nothing to do to logout..." w)
  else
    let w1 := if verbose n then log_Println "Logout..." w else w in
    match Request n "DELETE"%string "/session"%string [StatusOK] w1 with
    | (Some err, w2) => (Some err, n, w2)
    | (None, w2) => (None, set_authCookie "" n, w2)
    end.

End Client.

(** ** The client: [Request], [Login] and the fingerprint check *)
Module Http.

Import Client.

(** [url.URL], the parts that matter here; [Request] writes [Path] and
    [RawQuery] only. *)
Record URL : Type := {
  Scheme : string;
  Host : string;
  Path : string;
  RawQuery : string
}.

Definition set_Path (p : string) (u : URL) : URL :=
  {| Scheme := Scheme u; Host := Host u; Path := p; RawQuery := RawQuery u |}.

Definition set_RawQuery (q : string) (u : URL) : URL :=
  {| Scheme := Scheme u; Host := Host u; Path := Path u; RawQuery := q |}.

(** [http.Header]: the values added under each key. *)
Record httpRequest : Type := {
  reqMethod : string;
  reqURL : string;
  reqBody : string;
  reqHeader : gmap string (list string)
}.

(** [req.Header.Add(key, value)] *)
Definition Header_Add (key value : string) (req : httpRequest) : httpRequest :=
  {| reqMethod := reqMethod req; reqURL := reqURL req; reqBody := reqBody req;
     reqHeader := <[key := default [] (reqHeader req !! key) ++ [value]]> (reqHeader req) |}.

Record httpResponse : Type := {
  StatusCode : Z;
  Body : string
}.

(** The packages [Request] calls into. *)
Record Net : Type := {
  ParseRequestURI : string -> result URL string;     (* [url.ParseRequestURI] *)
  URLString : URL -> string;                         (* [fmt.Sprintf("%v", u)] *)
  NewRequest_error : string -> string -> option string;
                                (* the error of [http.NewRequest], on method and URL *)
  DumpRequest : httpRequest -> result string string; (* [httputil.DumpRequest(req, true)] *)
  Do : httpClient -> httpRequest -> result httpResponse string;  (* [n.client.Do] *)
  DumpResponse : httpResponse -> result string string;
  ReadAll : httpResponse -> result string string     (* [ioutil.ReadAll(resp.Body)] *)
}.

(** [strings.IndexByte]: the index of the first [c] in [s], or -1. *)
Fixpoint IndexByte (s : string) (c : Ascii.ascii) : Z :=
  match s with
  | EmptyString => -1
  | String a rest =>
      if Ascii.eqb a c then 0
      else let k := IndexByte rest c in if k =? -1 then -1 else k + 1
  end.

(** The slices [s[:k]] and [s[k:]]. *)
Definition slice_to (s : string) (k : Z) : string := String.substring 0 (Z.to_nat k) s.
Definition slice_from (s : string) (k : Z) : string :=
  String.substring (Z.to_nat k) (String.length s - Z.to_nat k) s.

(** The byte ['?']. *)
Definition question_mark : Ascii.ascii := Ascii.ascii_of_nat 63.

(** The block of [Request] that splits [resource] at its first ['?']. *)
Definition set_resource (resource : string) (u : URL) : URL :=
  let idx := IndexByte resource question_mark in
  if negb (idx =? -1)
  then set_RawQuery (slice_from resource (idx + 1)) (set_Path (slice_to resource idx) u)
  else set_Path resource u.

(** [Request] up to the point where the request is complete. *)
Definition buildRequest (net : Net) (n : nessusImpl) (method resource : string)
    (js : result string string) : result httpRequest string :=
  match ParseRequestURI net (apiURL n) with
  | Err err => Err err
  | Ok u =>
      let u := set_resource resource u in
      let urlStr := URLString net u in
      match js with
      | Err err => Err err
      | Ok jb =>
          match NewRequest_error net method urlStr with
          | Some err => Err err
          | None =>
              let req := {| reqMethod := method; reqURL := urlStr; reqBody := jb;
                            reqHeader := ∅ |} in
              let req := Header_Add "Content-Type" "application/json" req in
              let req := Header_Add "Accept" "application/json" req in
              let req :=
                if negb (String.eqb (authCookie n) "")
                then Header_Add "X-Cookie" ("token=" ++ authCookie n)%string req
                else req in
              let req :=
                if negb (String.eqb (accessKey n) "") && negb (String.eqb (secretKey n) "")
                then Header_Add "X-ApiKeys"
                       ("accessKey=" ++ accessKey n ++ "; secretKey=" ++ secretKey n)%string req
                else req in
              let req :=
                if negb (String.eqb (apiToken n) "")
                then Header_Add "X-API-Token" (apiToken n) req
                else req in
              Ok req
          end
      end
  end.

(** The loop over [wantStatus]. *)
Fixpoint statusFound (code : Z) (wantStatus : list Z) : bool :=
  match wantStatus with
  | [] => false
  | status :: rest => if code =? status then true else statusFound code rest
  end.

(** The client issues a request. *)
Definition sent (method resource : string) (w : world) : world :=
  {| logged := logged w; requests := requests w ++ [(method, resource)] |}.

(** [n.Request(method, resource, js, wantStatus)]; [js] is given by what
    [json.Marshal] makes of it. *)
Definition Request (net : Net) (n : nessusImpl) (method resource : string)
    (js : result string string) (wantStatus : list Z) (w : world)
    : result httpResponse string * world :=
  match buildRequest net n method resource js with
  | Err err => (Err err, w)
  | Ok req =>
      let dumped :=
        if verbose n then
          match DumpRequest net req with
          | Err err => Err err
          | Ok db => Ok (log_Println ("sending data: " ++ db)%string w)
          end
        else Ok w in
      match dumped with
      | Err err => (Err err, w)
      | Ok w1 =>
          let w2 := sent method resource w1 in
          match Do net (client n) req with
          | Err err => (Err err, w2)
          | Ok resp =>
              let w3 :=
                if verbose n then
                  match DumpResponse net resp with
                  | Ok body => log_Println body w2
                  | Err _ => w2
                  end
                else w2 in
              if negb (statusFound (StatusCode resp) wantStatus) then
                match ReadAll net resp with
                | Err err => (Err err, w3)
                | Ok body =>
                    (Err ("Unexpected status code, got " ++ pretty (StatusCode resp)
                          ++ " wanted [" ++ String.concat " " (pretty <$> wantStatus)
                          ++ "] (" ++ body ++ ")")%string, w3)
                end
              else (Ok resp, w3)
          end
      end
  end.

(** [n.Request(method, resource, nil, wantStatus)], with its response
    dropped: the [Request] of [Logout]. *)
Definition Request_nil (net : Net) : Request_t :=
  fun n method resource wantStatus w =>
    match Request net n method resource (Ok "null"%string) wantStatus w with
    | (Ok _, w') => (None, w')
    | (Err err, w') => (Some err, w')
    end.

(** [encoding/json] on the two structs of [Login]. *)
Record Codec : Type := {
  Marshal_loginRequest : string -> string -> result string string;
  Decode_loginResp : httpResponse -> result string string     (* the [Token] of the reply *)
}.

Definition Login (net : Net) (codec : Codec) (username password : string)
    (n : nessusImpl) (w : world) : option string * nessusImpl * world :=
  let w0 := if verbose n then log_Println ("Login into " ++ apiURL n)%string w else w in
  match Request net n "POST" "/session" (Marshal_loginRequest codec username password)
                [StatusOK] w0 with
  | (Err err, w1) => (Some err, n, w1)
  | (Ok resp, w1) =>
      match Decode_loginResp codec resp with
      | Err err => (Some err, n, w1)
      | Ok token => (None, set_authCookie token n, w1)
      end
  end.

(** [crypto/tls] and the two encodings behind [sha256Fingerprint]. *)
Record Tls : Type := {
  Conn : Type;
  Dial : string -> string -> tlsConfig -> result Conn string;   (* [tls.Dial] *)
  PeerCertificates : Conn -> list string;
                 (* [RawSubjectPublicKeyInfo] of each certificate of the peer's chain *)
  Sum256 : string -> string;                                    (* SHA-256 *)
  EncodeToString : string -> string                             (* [base64.StdEncoding] *)
}.

Definition sha256Fingerprint (tls : Tls) (data : string) : string :=
  EncodeToString tls (Sum256 tls data).

(** What a call of the function made by
    [createDialTLSFuncToVerifyFingerprint] comes to: a result, or the
    run-time panic of [state.PeerCertificates[0]] on an empty chain. *)
Inductive dialed (C : Type) : Type :=
| Dialed (r : result C string)
| IndexOutOfRange.
Arguments Dialed {C} r.
Arguments IndexOutOfRange {C}.

(** The loop over [certFingerprints]. *)
Fixpoint fingerprint_listed (peerFingerprint : string) (certFingerprints : list string) : bool :=
  match certFingerprints with
  | [] => false
  | fingerprint :: rest =>
      if String.eqb peerFingerprint fingerprint then true
      else fingerprint_listed peerFingerprint rest
  end.

(** The function made by [createDialTLSFuncToVerifyFingerprint], applied:
    its outcome and the connections it has closed. *)
Definition createDialTLSFuncToVerifyFingerprint (tls : Tls)
    (certFingerprints : list string) (config : tlsConfig) (network addr : string)
    : dialed (Conn tls) * list (Conn tls) :=
  match Dial tls network addr config with
  | Err err => (Dialed (Err err), [])
  | Ok conn =>
      match PeerCertificates tls conn with
      | [] => (IndexOutOfRange, [])
      | spki :: _ =>
          let peerFingerprint := sha256Fingerprint tls spki in
          if fingerprint_listed peerFingerprint certFingerprints
          then (Dialed (Ok conn), [])
          else (Dialed (Err ("no server certificate with fingerprints ["
                             ++ String.concat " " certFingerprints ++ "] was found")%string),
                [conn])
      end
  end.

End Http.

(** ** The remote side *)

(** The structs [PluginFamily], [FamilyDetails], [Plugin] and
    [PluginDetails] and the error values are declared outside [nessie.go];
    [AllPlugins] reads [family.ID], [famDetails.Plugins] and [plugin.ID]
    only. *)
Class Structs : Type := {
  error : Type;
  PluginFamily : Type;
  FamilyDetails_t : Type;
  Plugin : Type;
  PluginDetails_t : Type;
  PluginFamily_ID : PluginFamily -> Z;
  Plugins : FamilyDetails_t -> list Plugin;
  Plugin_ID : Plugin -> Z
}.

(** The three methods of the [Nessus] interface that [AllPlugins] calls. *)
Record Nessus `{Structs} : Type := {
  PluginFamilies : result (list PluginFamily) error;
  FamilyDetails : Z -> result FamilyDetails_t error;
  PluginDetails : Z -> result PluginDetails_t error
}.

Section AllPlugins.

Context `{Structs}.
Variable n : Nessus.

(** ** Goroutines *)

(** What [AllPlugins] returns: [(plugChan, nil)] or [(nil, err)]. *)
Inductive retval : Type :=
| RetChan
| RetErr (e : error).

(** The calling goroutine, inside [AllPlugins]. *)
Inductive main_pc : Type :=
| MStart                                  (* entry, up to [n.PluginFamilies()] *)
| MRange (rest : list PluginFamily)       (* head of [for _, family := range families] *)
| MGoFam (family : PluginFamily) (rest : list PluginFamily)
                                          (* after [wgf.Add(1)], at [go func(famID int64)] *)
| MWorkers (i : nat)                      (* head of [for i := 0; i < 10; i++] *)
| MGoClose                                (* at the last [go func()] *)
| MReturn                                 (* at [return plugChan, nil] *)
| MDone (r : retval).                     (* returned *)

(** A family goroutine [func(famID int64)]. *)
Inductive fam_pc : Type :=
| FStart (famID : Z)                      (* at [n.FamilyDetails(famID)] *)
| FRange (rest : list Plugin)             (* head of [for _, plugin := range famDetails.Plugins] *)
| FSend (id : Z) (rest : list Plugin)     (* after [wgp.Add(1)], at [idChan <- plugin.ID] *)
| FExit                                   (* at the deferred [wgf.Done()] *)
| FDone.                                  (* returned *)

(** A worker goroutine. *)
Inductive worker_pc : Type :=
| WRecv                                   (* at [for id := range idChan] *)
| WFetch (id : Z)                         (* inside [n.PluginDetails(id)] *)
| WErrDone                                (* [err != nil]: at [wgp.Done()], then [continue] *)
| WSend (plugin : PluginDetails_t)        (* at [plugChan <- *plugin] *)
| WOkDone                                 (* at the last [wgp.Done()] *)
| WExit.                                  (* range over, returned *)

(** The closing goroutine; [CNone] until it is started. *)
Inductive close_pc : Type :=
| CNone
| CWaitF                                  (* at [wgf.Wait()] *)
| CCloseId                                (* at [close(idChan)] *)
| CWaitP                                  (* at [wgp.Wait()] *)
| CClosePlug                              (* at [close(plugChan)] *)
| CDone.

Record state : Type := State {
  main : main_pc;
  fams : list fam_pc;
  workers : list worker_pc;
  closer : close_pc;
  wgf : Z;
  wgp : Z;
  idChan : Chan.chan Z;
  plugChan : Chan.chan PluginDetails_t;
  received : list PluginDetails_t         (* what the caller has read from the returned channel *)
}.

Definition set_main (m : main_pc) (s : state) : state :=
  State m (fams s) (workers s) (closer s) (wgf s) (wgp s) (idChan s) (plugChan s) (received s).
Definition set_fams (fs : list fam_pc) (s : state) : state :=
  State (main s) fs (workers s) (closer s) (wgf s) (wgp s) (idChan s) (plugChan s) (received s).
Definition set_workers (ws : list worker_pc) (s : state) : state :=
  State (main s) (fams s) ws (closer s) (wgf s) (wgp s) (idChan s) (plugChan s) (received s).
Definition set_closer (c : close_pc) (s : state) : state :=
  State (main s) (fams s) (workers s) c (wgf s) (wgp s) (idChan s) (plugChan s) (received s).
Definition set_wgf (v : Z) (s : state) : state :=
  State (main s) (fams s) (workers s) (closer s) v (wgp s) (idChan s) (plugChan s) (received s).
Definition set_wgp (v : Z) (s : state) : state :=
  State (main s) (fams s) (workers s) (closer s) (wgf s) v (idChan s) (plugChan s) (received s).
Definition set_idChan (c : Chan.chan Z) (s : state) : state :=
  State (main s) (fams s) (workers s) (closer s) (wgf s) (wgp s) c (plugChan s) (received s).
Definition set_plugChan (c : Chan.chan PluginDetails_t) (s : state) : state :=
  State (main s) (fams s) (workers s) (closer s) (wgf s) (wgp s) (idChan s) c (received s).
Definition set_received (r : list PluginDetails_t) (s : state) : state :=
  State (main s) (fams s) (workers s) (closer s) (wgf s) (wgp s) (idChan s) (plugChan s) r.

(** [plugChan := make(chan PluginDetails, 20)], [idChan := make(chan int64, 20)],
    both wait groups at zero, no goroutine started. *)
Definition init : state :=
  State MStart [] [] CNone 0 0 (Chan.make 20) (Chan.make 20) [].

(** The number of workers: the literal of [for i := 0; i < 10; i++]. *)
Definition nworkers : nat := 10.

(** ** Atomic actions *)

Definition omap_outcome {A B : Type} (f : A -> B) (o : outcome A) : outcome B :=
  match o with
  | Next a => Next (f a)
  | Idle => Idle
  | Panic => Panic
  end.

Definition step_main (s : state) : outcome state :=
  match main s with
  | MStart =>
      match PluginFamilies n with
      | Err e => Next (set_main (MDone (RetErr e)) s)
      | Ok families => Next (set_main (MRange families) s)
      end
  | MRange [] => Next (set_main (MWorkers 0) s)
  | MRange (family :: rest) =>
      omap_outcome (fun v => set_main (MGoFam family rest) (set_wgf v s))
                   (WaitGroup.Add (wgf s) 1)
  | MGoFam family rest =>
      Next (set_main (MRange rest) (set_fams (fams s ++ [FStart (PluginFamily_ID family)]) s))
  | MWorkers i =>
      if (i <? nworkers)%nat
      then Next (set_main (MWorkers (S i)) (set_workers (workers s ++ [WRecv]) s))
      else Next (set_main MGoClose s)
  | MGoClose => Next (set_main MReturn (set_closer CWaitF s))
  | MReturn => Next (set_main (MDone RetChan) s)
  | MDone _ => Idle
  end.

Definition step_fam (i : nat) (pc : fam_pc) (s : state) : outcome state :=
  match pc with
  | FStart famID =>
      match FamilyDetails n famID with
      | Err _ => Next (set_fams (<[i := FExit]> (fams s)) s)
      | Ok famDetails => Next (set_fams (<[i := FRange (Plugins famDetails)]> (fams s)) s)
      end
  | FRange [] => Next (set_fams (<[i := FExit]> (fams s)) s)
  | FRange (plugin :: rest) =>
      omap_outcome (fun v => set_fams (<[i := FSend (Plugin_ID plugin) rest]> (fams s)) (set_wgp v s))
                   (WaitGroup.Add (wgp s) 1)
  | FSend id rest =>
      omap_outcome (fun c => set_fams (<[i := FRange rest]> (fams s)) (set_idChan c s))
                   (Chan.send (idChan s) id)
  | FExit =>
      omap_outcome (fun v => set_fams (<[i := FDone]> (fams s)) (set_wgf v s))
                   (WaitGroup.Done (wgf s))
  | FDone => Idle
  end.

Definition step_worker (j : nat) (pc : worker_pc) (s : state) : outcome state :=
  match pc with
  | WRecv =>
      omap_outcome
        (fun '(x, c) =>
           match x with
           | Some id => set_workers (<[j := WFetch id]> (workers s)) (set_idChan c s)
           | None => set_workers (<[j := WExit]> (workers s)) s
           end)
        (Chan.recv (idChan s))
  | WFetch id =>
      match PluginDetails n id with
      | Err _ => Next (set_workers (<[j := WErrDone]> (workers s)) s)
      | Ok plugin => Next (set_workers (<[j := WSend plugin]> (workers s)) s)
      end
  | WErrDone =>
      omap_outcome (fun v => set_workers (<[j := WRecv]> (workers s)) (set_wgp v s))
                   (WaitGroup.Done (wgp s))
  | WSend plugin =>
      omap_outcome (fun c => set_workers (<[j := WOkDone]> (workers s)) (set_plugChan c s))
                   (Chan.send (plugChan s) plugin)
  | WOkDone =>
      omap_outcome (fun v => set_workers (<[j := WRecv]> (workers s)) (set_wgp v s))
                   (WaitGroup.Done (wgp s))
  | WExit => Idle
  end.

Definition step_closer (s : state) : outcome state :=
  match closer s with
  | CNone => Idle
  | CWaitF => omap_outcome (fun _ => set_closer CCloseId s) (WaitGroup.Wait (wgf s))
  | CCloseId => omap_outcome (fun c => set_closer CWaitP (set_idChan c s)) (Chan.close (idChan s))
  | CWaitP => omap_outcome (fun _ => set_closer CClosePlug s) (WaitGroup.Wait (wgp s))
  | CClosePlug => omap_outcome (fun c => set_closer CDone (set_plugChan c s)) (Chan.close (plugChan s))
  | CDone => Idle
  end.

(** The caller of [AllPlugins] reading the returned channel; it has no
    channel before [AllPlugins] has returned one. *)
Definition step_caller (s : state) : outcome state :=
  match main s with
  | MDone RetChan =>
      match Chan.recv (plugChan s) with
      | Next (Some plugin, c) => Next (set_received (received s ++ [plugin]) (set_plugChan c s))
      | Next (None, _) => Idle
      | Idle => Idle
      | Panic => Panic
      end
  | _ => Idle
  end.

Inductive tid : Type :=
| TMain
| TFam (i : nat)
| TWorker (j : nat)
| TCloser
| TCaller.

Definition step (t : tid) (s : state) : outcome state :=
  match t with
  | TMain => step_main s
  | TFam i =>
      match fams s !! i with
      | Some pc => step_fam i pc s
      | None => Idle
      end
  | TWorker j =>
      match workers s !! j with
      | Some pc => step_worker j pc s
      | None => Idle
      end
  | TCloser => step_closer s
  | TCaller => step_caller s
  end.

(** A schedule is run from a state; it stops at the first action that cannot
    be taken. *)
Fixpoint exec (sched : list tid) (s : state) : outcome state :=
  match sched with
  | [] => Next s
  | t :: rest =>
      match step t s with
      | Next s' => exec rest s'
      | Idle => Idle
      | Panic => Panic
      end
  end.

Definition reachable (s : state) : Prop :=
  exists sched, exec sched init = Next s.

(** ** What a run has to deliver *)

(** The record that [PluginDetails] returns for an ID, if it returns one. *)
Definition plugin_of (id : Z) : option PluginDetails_t :=
  match PluginDetails n id with
  | Ok plugin => Some plugin
  | Err _ => None
  end.

(** The record of an ID as a list: empty when [PluginDetails] fails. *)
Definition record_of (id : Z) : list PluginDetails_t :=
  match plugin_of id with
  | Some plugin => [plugin]
  | None => []
  end.

(** The records of the IDs whose [PluginDetails] call succeeds. *)
Definition records_of (ids : list Z) : list PluginDetails_t := ids ≫= record_of.

(** The plugin IDs that [FamilyDetails] lists for a family; none when the
    call fails. *)
Definition ids_of_family (famID : Z) : list Z :=
  match FamilyDetails n famID with
  | Ok famDetails => Plugin_ID <$> Plugins famDetails
  | Err _ => []
  end.

Definition ids_of_families (families : list PluginFamily) : list Z :=
  families ≫= (fun family => ids_of_family (PluginFamily_ID family)).

(** The families of the initial listing. *)
Definition listed_families : list PluginFamily :=
  match PluginFamilies n with
  | Ok families => families
  | Err _ => []
  end.

(** Every plugin ID of every family whose [FamilyDetails] call succeeds. *)
Definition listed_ids : list Z := ids_of_families listed_families.

(** The records of the plugins whose family fetch and own fetch succeed. *)
Definition expected : list PluginDetails_t := records_of listed_ids.

(** ** Accounting on a state *)

(** Everything sent on the returned channel so far: what the caller has
    read, then what is still buffered. *)
Definition emitted (s : state) : list PluginDetails_t :=
  received s ++ Chan.buf (plugChan s).

Definition main_ids (m : main_pc) : list Z :=
  match m with
  | MStart => listed_ids
  | MRange rest => ids_of_families rest
  | MGoFam family rest => ids_of_families (family :: rest)
  | _ => []
  end.

Definition fam_ids (pc : fam_pc) : list Z :=
  match pc with
  | FStart famID => ids_of_family famID
  | FRange rest => Plugin_ID <$> rest
  | FSend id rest => id :: (Plugin_ID <$> rest)
  | _ => []
  end.

Definition worker_ids (pc : worker_pc) : list Z :=
  match pc with
  | WFetch id => [id]
  | _ => []
  end.

Definition worker_records (pc : worker_pc) : list PluginDetails_t :=
  match pc with
  | WSend plugin => [plugin]
  | _ => []
  end.

(** The IDs still on their way to a [PluginDetails] call. *)
Definition pending_ids (s : state) : list Z :=
  (workers s ≫= worker_ids) ++ Chan.buf (idChan s) ++ (fams s ≫= fam_ids) ++ main_ids (main s).

(** The records fetched and not sent yet. *)
Definition held_records (s : state) : list PluginDetails_t :=
  workers s ≫= worker_records.

Definition accounted (s : state) : list PluginDetails_t :=
  emitted s ++ held_records s ++ records_of (pending_ids s).

(** A family goroutine that has not run its [wgf.Done()]. *)
Definition fam_live (pc : fam_pc) : nat :=
  match pc with
  | FDone => 0
  | _ => 1
  end.

(** [wgf.Add(1)] done, goroutine not started yet. *)
Definition main_live (m : main_pc) : nat :=
  match m with
  | MGoFam _ _ => 1
  | _ => 0
  end.

(** [wgp.Add(1)] done, ID not sent yet. *)
Definition fam_owes (pc : fam_pc) : nat :=
  match pc with
  | FSend _ _ => 1
  | _ => 0
  end.

(** A worker that has taken an ID and not run its [wgp.Done()]. *)
Definition worker_owes (pc : worker_pc) : nat :=
  match pc with
  | WRecv | WExit => 0
  | _ => 1
  end.

(** A worker inside [n.PluginDetails(id)]. *)
Definition worker_fetching (pc : worker_pc) : nat :=
  match pc with
  | WFetch _ => 1
  | _ => 0
  end.

Definition in_flight (s : state) : nat := sum_list_with worker_fetching (workers s).

(** The families for which [main] has not started a goroutine yet. *)
Definition main_unspawned (m : main_pc) : list PluginFamily :=
  match m with
  | MStart => listed_families
  | MRange rest => rest
  | MGoFam family rest => family :: rest
  | _ => []
  end.

(** The workers [main] has started. *)
Definition main_workers (m : main_pc) : nat :=
  match m with
  | MWorkers i => i
  | MGoClose | MReturn | MDone RetChan => nworkers
  | _ => 0
  end.

Definition main_started_closer (m : main_pc) : bool :=
  match m with
  | MReturn | MDone RetChan => true
  | _ => false
  end.

Definition closer_rank (c : close_pc) : nat :=
  match c with
  | CNone => 0
  | CWaitF => 1
  | CCloseId => 2
  | CWaitP => 3
  | CClosePlug => 4
  | CDone => 5
  end.

(** [main] is past the listing and has a channel to return. *)
Definition main_started (m : main_pc) : bool :=
  match m with
  | MStart | MDone (RetErr _) => false
  | _ => true
  end.

(** What [main] knows of the listing at each of its program points. *)
Definition main_listing (m : main_pc) : Prop :=
  match m with
  | MStart => True
  | MDone (RetErr e) => PluginFamilies n = Err e
  | _ => exists families, PluginFamilies n = Ok families
  end.

(** The invariant of [AllPlugins]. *)
Record Inv (s : state) : Prop := {
  inv_listing : main_listing (main s);
  inv_quiet : main_started (main s) = false -> s = set_main (main s) init;
  inv_spawned :
    (length (fams s) + length (main_unspawned (main s)))%nat = length listed_families;
  inv_workers : length (workers s) = main_workers (main s);
  inv_workers_le : (length (workers s) <= nworkers)%nat;
  inv_closer : closer s = CNone <-> main_started_closer (main s) = false;
  inv_wgf : wgf s = Z.of_nat (sum_list_with fam_live (fams s) + main_live (main s));
  inv_wgp :
    wgp s = Z.of_nat (sum_list_with fam_owes (fams s) + length (Chan.buf (idChan s))
                      + sum_list_with worker_owes (workers s));
  inv_fams_done : (2 <= closer_rank (closer s))%nat -> Forall (fun pc => pc = FDone) (fams s);
  inv_id_closed : Chan.closed (idChan s) = (3 <=? closer_rank (closer s))%nat;
  inv_wgp_zero : (4 <= closer_rank (closer s))%nat -> wgp s = 0;
  inv_plug_closed : Chan.closed (plugChan s) = (5 <=? closer_rank (closer s))%nat;
  inv_exit :
    WExit ∈ workers s -> Chan.closed (idChan s) = true /\ Chan.buf (idChan s) = [];
  inv_id_cap : Chan.cap (idChan s) = 20%nat /\ (length (Chan.buf (idChan s)) <= 20)%nat;
  inv_plug_cap : Chan.cap (plugChan s) = 20%nat /\ (length (Chan.buf (plugChan s)) <= 20)%nat;
  inv_accounted : accounted s ≡ₚ expected
}.

(** ** A scheduler *)

(** The goroutines of a state, and the caller. *)
Definition candidates (s : state) : list tid :=
  TMain :: TCloser :: TCaller
  :: (TWorker <$> seq 0 (length (workers s))) ++ (TFam <$> seq 0 (length (fams s))).

Fixpoint first_enabled (ts : list tid) (s : state) : option (tid * state) :=
  match ts with
  | [] => None
  | t :: rest =>
      match step t s with
      | Next s' => Some (t, s')
      | _ => first_enabled rest s
      end
  end.

(** Runs whichever goroutine can move, for at most [fuel] actions; returns
    the schedule it followed and the state it stopped in. *)
Fixpoint run (fuel : nat) (s : state) : list tid * state :=
  match fuel with
  | O => ([], s)
  | S fuel' =>
      match first_enabled (candidates s) s with
      | Some (t, s') => let '(sched, s'') := run fuel' s' in (t :: sched, s'')
      | None => ([], s)
      end
  end.

(** No goroutine and no caller can move. *)
Definition stuck (s : state) : Prop := forall t s', step t s <> Next s'.

(** ** A bound on the length of a run *)

(** The number of actions each part of a state can still cause, at most. *)
Definition closer_weight (c : close_pc) : nat :=
  match c with
  | CNone | CDone => 0
  | CWaitF => 4
  | CCloseId => 3
  | CWaitP => 2
  | CClosePlug => 1
  end.

Definition worker_weight (pc : worker_pc) : nat :=
  match pc with
  | WRecv => 1
  | WFetch _ => 5
  | WErrDone => 2
  | WSend _ => 4
  | WOkDone => 2
  | WExit => 0
  end.

Definition fam_weight (pc : fam_pc) : nat :=
  match pc with
  | FStart famID => (3 + 7 * length (ids_of_family famID))%nat
  | FRange rest => (2 + 7 * length rest)%nat
  | FSend _ rest => (8 + 7 * length rest)%nat
  | FExit => 1
  | FDone => 0
  end.

Definition families_weight (families : list PluginFamily) : nat :=
  (28 + sum_list_with (fun family => 2 + fam_weight (FStart (PluginFamily_ID family))) families)%nat.

Definition main_weight (m : main_pc) : nat :=
  match m with
  | MStart => (1 + families_weight listed_families)%nat
  | MRange rest => families_weight rest
  | MGoFam family rest =>
      (1 + fam_weight (FStart (PluginFamily_ID family)) + families_weight rest)%nat
  | MWorkers i => (7 + 2 * (nworkers - i))%nat
  | MGoClose => 6
  | MReturn => 1
  | MDone _ => 0
  end.

Definition weight (s : state) : nat :=
  (main_weight (main s) + sum_list_with fam_weight (fams s)
   + sum_list_with worker_weight (workers s) + closer_weight (closer s)
   + 5 * length (Chan.buf (idChan s)) + length (Chan.buf (plugChan s)))%nat.

(** The caller has seen the end of the stream. *)
Definition completed (s : state) : Prop :=
  Chan.closed (plugChan s) = true /\ Chan.buf (plugChan s) = [].

(** ** The claims' own words *)

Definition succeeded {T E : Type} (r : result T E) : bool :=
  match r with
  | Ok _ => true
  | Err _ => false
  end.

(** The listed families whose [FamilyDetails] call succeeds. *)
Definition ok_families : list PluginFamily :=
  filter (fun family => succeeded (FamilyDetails n (PluginFamily_ID family)) = true)
         listed_families.

(** The plugin IDs of those families whose own [PluginDetails] call
    succeeds. *)
Definition ok_ids : list Z :=
  filter (fun id => succeeded (PluginDetails n id) = true) (ids_of_families ok_families).

(** What [AllPlugins] returns, read off the listing alone. *)
Definition ret_of_listing : retval :=
  match PluginFamilies n with
  | Ok _ => RetChan
  | Err e => RetErr e
  end.



(** ** The remote calls of a run *)







(** Every goroutine that was started has returned. *)
Definition all_returned (s : state) : Prop :=
  Forall (fun pc => pc = FDone) (fams s) /\ Forall (fun pc => pc = WExit) (workers s)
  /\ closer s = CDone.

End AllPlugins.

Arguments record_of : simpl never.
Arguments records_of : simpl never.

(** ** Small remote sides to run the model on *)
Module Demo.

#[export] Instance demo_structs : Structs := {|
  error := string;
  PluginFamily := Z;
  FamilyDetails_t := list Z;
  Plugin := Z;
  PluginDetails_t := string;
  PluginFamily_ID := fun family => family;
  Plugins := fun famDetails => famDetails;
  Plugin_ID := fun plugin => plugin
|}.

(** Families 1 (plugins 11, 12, 13) and 2 (plugins 21, 22); the details of
    family 1 cannot be fetched. *)
Definition family_fails : Nessus := {|
  PluginFamilies := Ok [1; 2];
  FamilyDetails := fun famID =>
    if famID =? 1 then Err "timeout"%string
    else if famID =? 2 then Ok [21; 22]
    else Err "not found"%string;
  PluginDetails := fun id =>
    if id =? 11 then Ok "p11"%string
    else if id =? 12 then Ok "p12"%string
    else if id =? 13 then Ok "p13"%string
    else if id =? 21 then Ok "p21"%string
    else if id =? 22 then Ok "p22"%string
    else Err "not found"%string
|}.

(** One family with plugins 1, 2, 3; plugin 2 cannot be fetched. *)
Definition leaf_fails : Nessus := {|
  PluginFamilies := Ok [7];
  FamilyDetails := fun famID => if famID =? 7 then Ok [1; 2; 3] else Err "not found"%string;
  PluginDetails := fun id =>
    if id =? 1 then Ok "p1"%string
    else if id =? 2 then Err "timeout"%string
    else if id =? 3 then Ok "p3"%string
    else Err "not found"%string
|}.

(** The family listing fails. *)
Definition listing_fails : Nessus := {|
  PluginFamilies := Err "connection refused"%string;
  FamilyDetails := fun _ => Ok [1];
  PluginDetails := fun _ => Ok "p"%string
|}.

(** Two families of 26 and 3 plugins; every call succeeds.  The record of a
    plugin is the one-byte string of its ID. *)
Definition all_succeed : Nessus := {|
  PluginFamilies := Ok [1; 2];
  FamilyDetails := fun famID =>
    if famID =? 1 then Ok (Z.of_nat <$> seq 65 26)
    else Ok [40; 41; 42];
  PluginDetails := fun id => Ok (String (Ascii.ascii_of_N (Z.to_N id)) EmptyString)
|}.

(** A full run on each of them: the schedule that [run] follows and the
    state it ends in. *)
Definition family_fails_sched : list tid := Eval vm_compute in (run family_fails 400 init).1.
Definition family_fails_end : state := Eval vm_compute in (run family_fails 400 init).2.

Definition leaf_fails_sched : list tid := Eval vm_compute in (run leaf_fails 400 init).1.
Definition leaf_fails_end : state := Eval vm_compute in (run leaf_fails 400 init).2.

Definition listing_fails_sched : list tid := Eval vm_compute in (run listing_fails 400 init).1.
Definition listing_fails_end : state := Eval vm_compute in (run listing_fails 400 init).2.

Definition all_succeed_sched : list tid := Eval vm_compute in (run all_succeed 400 init).1.
Definition all_succeed_end : state := Eval vm_compute in (run all_succeed 400 init).2.

(** [AllPlugins] has returned on [leaf_fails], and the family goroutine has
    sent ID 1 and stands at [idChan <- plugin.ID] with ID 2. *)
Definition leaf_fails_sending_sched : list tid := replicate 17 TMain ++ replicate 4 (TFam 0).
Definition leaf_fails_sending : state :=
  Eval vm_compute in
    match exec leaf_fails leaf_fails_sending_sched init with
    | Next s => s
    | _ => init
    end.


(** A client that is not logged in, and a [Request] that records what it is
    asked and fails. *)
Definition logged_out : Client.nessusImpl := {|
  Client.client := {|
    Client.TLSClientConfig := {| Client.InsecureSkipVerify := true; Client.RootCAs := None |};
    Client.DialTLS := None |};
  Client.authCookie := "";
  Client.apiURL := "https://nessus.example:8834";
  Client.accessKey := "";
  Client.secretKey := "";
  Client.apiToken := "";
  Client.verbose := true
|}.

Definition recording_Request : Client.Request_t :=
  fun _ method resource _ w =>
    (Some "no route to host"%string,
     {| Client.logged := Client.logged w;
        Client.requests := Client.requests w ++ [(method, resource)] |}).

Definition quiet_world : Client.world := {| Client.logged := []; Client.requests := [] |}.

(** The state after the family goroutine of [leaf_fails_sending] has sent
    ID 2. *)
Definition leaf_fails_sent : state :=
  Eval vm_compute in
    match step leaf_fails (TFam 0) leaf_fails_sending with
    | Next s => s
    | _ => init
    end.

(** A machine with one CA file, and a server that serves the token page. *)
Definition demo_os : Client.OS := {|
  Client.ReadFile := fun path =>
    if String.eqb path "/etc/nessus/ca.pem" then Ok "-----BEGIN CERTIFICATE-----"%string
    else if String.eqb path "/etc/nessus/empty.pem" then Ok ""%string
    else Err "open: no such file or directory"%string;
  Client.AppendCertsFromPEM := fun pem => negb (String.eqb pem "");
  Client.Get := fun _ _ => Ok "token: 0A1B2C3D-0000-0000-0000-000000000000"%string;
  Client.FindString := fun _ => "0A1B2C3D-0000-0000-0000-000000000000"%string
|}.

(** The same machine with the server out of reach. *)
Definition unreachable_os : Client.OS := {|
  Client.ReadFile := Client.ReadFile demo_os;
  Client.AppendCertsFromPEM := Client.AppendCertsFromPEM demo_os;
  Client.Get := fun _ _ => Err "dial tcp: connection refused"%string;
  Client.FindString := Client.FindString demo_os
|}.

Definition ca_client : Client.nessusImpl :=
  Eval vm_compute in
    match Client.NewNessus demo_os "https://nessus.example:8834" "/etc/nessus/ca.pem" with
    | Client.Return (Ok n) => n
    | _ => logged_out
    end.

(** A client with a cookie and both API keys. *)
Definition logged_in : Client.nessusImpl := {|
  Client.client := Client.client logged_out;
  Client.authCookie := "s3cr3t";
  Client.apiURL := "https://nessus.example:8834";
  Client.accessKey := "AK";
  Client.secretKey := "SK";
  Client.apiToken := "";
  Client.verbose := true
|}.

(** A server that hands out the token [s3cr3t] on [POST /session] and takes
    [DELETE /session] from whoever shows it. *)
Definition demo_net : Http.Net := {|
  Http.ParseRequestURI := fun raw =>
    if String.eqb raw "" then Err "parse: empty url"%string
    else Ok {| Http.Scheme := "https"; Http.Host := "nessus.example:8834";
               Http.Path := ""; Http.RawQuery := "" |};
  Http.URLString := fun u =>
    (Http.Scheme u ++ "://" ++ Http.Host u ++ Http.Path u
     ++ (if String.eqb (Http.RawQuery u) "" then "" else "?" ++ Http.RawQuery u))%string;
  Http.NewRequest_error := fun _ _ => None;
  Http.DumpRequest := fun req => Ok (Http.reqMethod req ++ " " ++ Http.reqURL req)%string;
  Http.Do := fun _ req =>
    if String.eqb (Http.reqURL req) "https://nessus.example:8834/session" then
      if String.eqb (Http.reqMethod req) "POST"
      then Ok {| Http.StatusCode := 200; Http.Body := "{token}" |}
      else if bool_decide (Http.reqHeader req !! "X-Cookie"%string = Some ["token=s3cr3t"%string])
      then Ok {| Http.StatusCode := 200; Http.Body := "" |}
      else Ok {| Http.StatusCode := 401; Http.Body := "unauthorized" |}
    else Ok {| Http.StatusCode := 404; Http.Body := "not found" |};
  Http.DumpResponse := fun resp => Ok (Http.Body resp);
  Http.ReadAll := fun resp => Ok (Http.Body resp)
|}.

Definition demo_codec : Http.Codec := {|
  Http.Marshal_loginRequest := fun username password =>
    Ok ("{" ++ username ++ ":" ++ password ++ "}")%string;
  Http.Decode_loginResp := fun resp =>
    if String.eqb (Http.Body resp) "" then Err "EOF"%string else Ok "s3cr3t"%string
|}.

(** What the calls on this server come to. *)
Definition delete_session :=
  Eval vm_compute in
    Http.Request demo_net logged_in "DELETE" "/session" (Ok "null"%string) [200] quiet_world.

Definition get_scans :=
  Eval vm_compute in
    Http.Request demo_net logged_in "GET" "/scans?folder_id=3" (Ok "null"%string) [200]
                 quiet_world.


Definition login_result :=
  Eval vm_compute in Http.Login demo_net demo_codec "admin" "hunter2" logged_out quiet_world.

Definition logout_result :=
  Eval vm_compute in
    Client.Logout (Http.Request_nil demo_net) login_result.1.2 login_result.2.

(** Two servers: the first shows a listed key, the second shows its own key
    first and the listed one behind it. *)
Definition demo_tls : Http.Tls := {|
  Http.Conn := nat;
  Http.Dial := fun _ addr _ =>
    if String.eqb addr "nessus.example:8834" then Ok 1%nat
    else if String.eqb addr "evil.example:8834" then Ok 2%nat
    else Err "dial tcp: no such host"%string;
  Http.PeerCertificates := fun conn =>
    if (conn =? 1)%nat then ["spki-nessus"; "spki-ca"]%string
    else ["spki-evil"; "spki-nessus"]%string;
  Http.Sum256 := fun data => ("sha256:" ++ data)%string;
  Http.EncodeToString := fun digest => ("b64:" ++ digest)%string
|}.

Definition pinned_client : Client.nessusImpl :=
  Eval vm_compute in
    match Client.NewFingerprintedNessus demo_os "https://nessus.example:8834"
            ["b64:sha256:spki-nessus"%string] with
    | Client.Return (Ok n) => n
    | _ => logged_out
    end.

Definition insecure_config : Client.tlsConfig :=
  {| Client.InsecureSkipVerify := true; Client.RootCAs := None |}.

End Demo.

(** * Proofs *)

(** ** Lists of goroutines *)

Section ListFacts.

Context {A B : Type}.

Lemma lookup_split (l : list A) (i : nat) (x : A) :
  l !! i = Some x ->
  exists l1 l2, l = l1 ++ x :: l2 /\ length l1 = i /\ forall y, <[i := y]> l = l1 ++ y :: l2.
Proof.
  revert i. induction l as [|a l IH]; intros [|i] Hi; simplify_eq/=.
  - exists [], l. auto.
  - destruct (IH _ Hi) as (l1 & l2 & -> & <- & Hins).
    exists (a :: l1), l2. repeat split; auto.
    intros y. simpl. by rewrite Hins.
Qed.

Lemma sum_list_with_zero (f : A -> nat) (l : list A) :
  sum_list_with f l = 0%nat -> Forall (fun x => f x = 0%nat) l.
Proof.
  induction l as [|a l IH]; simpl; intros Hs; constructor; [lia|apply IH; lia].
Qed.

Lemma sum_list_with_all_zero (f : A -> nat) (l : list A) :
  Forall (fun x => f x = 0%nat) l -> sum_list_with f l = 0%nat.
Proof. induction 1; simpl; lia. Qed.

Lemma sum_list_with_le (f : A -> nat) (l : list A) :
  (forall x, f x <= 1)%nat -> (sum_list_with f l <= length l)%nat.
Proof.
  intros Hf. induction l as [|a l IH]; simpl; [lia|]. specialize (Hf a). lia.
Qed.

Lemma bind_all_nil (f : A -> list B) (l : list A) :
  Forall (fun x => f x = []) l -> l ≫= f = [].
Proof. induction 1 as [|x l Hx _ IH]; [done|]. by rewrite bind_cons, Hx, IH. Qed.

End ListFacts.

(** ** Runs *)

Section Runs.

Context `{Structs}.
Variable n : Nessus.

Lemma exec_app (sched1 sched2 : list tid) (s s1 : state) :
  exec n sched1 s = Next s1 -> exec n (sched1 ++ sched2) s = exec n sched2 s1.
Proof.
  revert s. induction sched1 as [|t sched1 IH]; simpl; intros s Hs.
  - by simplify_eq.
  - destruct (step n t s); try done. by apply IH.
Qed.

Lemma reachable_init : reachable n init.
Proof. by exists []. Qed.

Lemma reachable_step (t : tid) (s s' : state) :
  reachable n s -> step n t s = Next s' -> reachable n s'.
Proof.
  intros [sched Hs] Ht. exists (sched ++ [t]).
  rewrite (exec_app _ _ _ _ Hs). simpl. by rewrite Ht.
Qed.

Lemma exec_invariant (P : state -> Prop) :
  (forall t s s', P s -> step n t s = Next s' -> P s') ->
  forall sched s s', P s -> exec n sched s = Next s' -> P s'.
Proof.
  intros Hstep sched. induction sched as [|t sched IH]; simpl; intros s s' Hs He.
  - by simplify_eq.
  - destruct (step n t s) as [s1| |] eqn:Ht; try done. eauto.
Qed.

Lemma reachable_invariant (P : state -> Prop) :
  P init ->
  (forall t s s', P s -> step n t s = Next s' -> P s') ->
  forall s, reachable n s -> P s.
Proof. intros Hi Hstep s [sched Hs]. eapply exec_invariant; eauto. Qed.

End Runs.

(** ** The invariant *)

Section Pipeline.

Context `{Structs}.
Variable n : Nessus.

Lemma fam_live_zero (fs : list fam_pc) :
  sum_list_with fam_live fs = 0%nat -> Forall (fun pc => pc = FDone) fs.
Proof.
  intros Hz. eapply Forall_impl; [by apply sum_list_with_zero|].
  intros []; simpl; done.
Qed.

(** Case analysis on the tests of a channel or wait-group operation. *)
Ltac split_on t := first [is_var t; destruct t|destruct t eqn:?].

Ltac split_ifs H :=
  repeat match type of H with
  | context [if ?b then _ else _] => split_on b; try discriminate H
  | context [match ?l with [] => _ | _ :: _ => _ end] => split_on l; try discriminate H
  end.

Ltac outcome_cases :=
  repeat match goal with
  | H : omap_outcome _ ?o = Next _ |- _ =>
      let E := fresh "E" in destruct o eqn:E; simpl in H; [|discriminate H..]
  | H : WaitGroup.Done _ = Next _ |- _ => unfold WaitGroup.Done in H
  | H : WaitGroup.Add _ _ = Next _ |- _ => unfold WaitGroup.Add in H; split_ifs H
  | H : WaitGroup.Wait _ = Next _ |- _ => unfold WaitGroup.Wait in H; split_ifs H
  | H : Chan.send _ _ = Next _ |- _ => unfold Chan.send in H; simpl in H; split_ifs H
  | H : Chan.close _ = Next _ |- _ => unfold Chan.close in H; simpl in H; split_ifs H
  | H : Chan.recv _ = Next _ |- _ => unfold Chan.recv in H; simpl in H; split_ifs H
  end.

Lemma records_of_app (l1 l2 : list Z) :
  records_of n (l1 ++ l2) = records_of n l1 ++ records_of n l2.
Proof. apply bind_app. Qed.

Lemma records_of_cons (id : Z) (l : list Z) :
  records_of n (id :: l) = record_of n id ++ records_of n l.
Proof. apply bind_cons. Qed.

Lemma records_of_nil : records_of n [] = [].
Proof. done. Qed.

(** Sums, binds and lengths over [l1 ++ x :: l2]. *)
Ltac list_norm :=
  repeat (rewrite ?sum_list_with_app, ?bind_app, ?bind_cons, ?records_of_app,
            ?records_of_cons, ?records_of_nil, ?length_app,
            ?fmap_app, ?app_nil_r, <- ?app_assoc in *; simpl in * ).

Ltac unfold_inv :=
  unfold main_listing, accounted, emitted, held_records, pending_ids,
    nworkers, init, Chan.make, set_main, set_fams, set_workers, set_closer, set_wgf,
    set_wgp, set_idChan, set_plugChan, set_received in *;
  simpl in *.

Ltac open_inv HI :=
  destruct HI as [Hl Hq Hsp Hw Hwle Hc Hwf Hwp Hfd Hic Hw0 Hpc Hex Hicap Hpcap Hacc];
  unfold_inv.

(** The closing goroutine does not exist yet. *)
Ltac no_closer :=
  match goal with
  | Hc : ?c = CNone <-> false = false |- _ =>
      let E := fresh in assert (c = CNone) as E by (by apply Hc); clear Hc; subst c; simpl in *
  end.

(** Boolean tests as (in)equalities, then [lia]. *)
Ltac arith :=
  repeat match goal with
  | H : (_ <? _)%nat = true |- _ => apply Nat.ltb_lt in H
  | H : (_ <? _)%nat = false |- _ => apply Nat.ltb_ge in H
  | H : (_ <=? _)%nat = true |- _ => apply Nat.leb_le in H
  | H : (_ <=? _)%nat = false |- _ => apply Nat.leb_gt in H
  | H : (_ <? _) = false |- _ => apply Z.ltb_ge in H
  | H : (_ =? _) = true |- _ => apply Z.eqb_eq in H
  | H : _ /\ _ |- _ => destruct H
  end;
  try lia.

Lemma Inv_init : Inv n init.
Proof.
  constructor; unfold_inv; try done; try lia.
  intros Hin. by apply elem_of_nil in Hin.
Qed.

(** The invariant in the next state, field by field. *)
Ltac close_inv :=
  constructor; unfold_inv; list_norm; unfold nworkers in *; eauto; try done;
  try (intros; congruence); arith;
  try match goal with
  | Hacc : _ ≡ₚ expected _ |- _ ≡ₚ expected _ =>
      by (etrans; [|exact Hacc]; solve_Permutation)
  | Hex : WExit ∈ ?ws -> _ /\ _ |- WExit ∈ ?ws -> _ =>
      let Hin := fresh in intros Hin; destruct (Hex Hin); split; congruence
  end.

Lemma step_main_Inv (s s' : state) : Inv n s -> step_main n s = Next s' -> Inv n s'.
Proof.
  intros HI Hs. destruct s as [m fs ws c wf wp [icap ibuf icl] [pcap pbuf pcl] rc].
  unfold step_main in Hs. open_inv HI.
  destruct m as [|[|family rest]|family rest|i| | |r]; simpl in *; try no_closer.
  - (* the listing *)
    specialize (Hq eq_refl). injection Hq as -> -> _ _ -> -> -> -> -> -> ->.
    destruct (PluginFamilies n) as [families|e] eqn:Hlist; simplify_eq;
      constructor; unfold_inv; unfold listed_ids, listed_families in *;
      rewrite ?Hlist in *; list_norm; eauto; try done; try lia.
  - simplify_eq. close_inv.
  - outcome_cases. simplify_eq. close_inv.
  - simplify_eq. close_inv.
  - unfold nworkers in *. destruct (i <? 10)%nat eqn:Hi; simplify_eq; close_inv.
    intros [Hin|Hin%list_elem_of_singleton]%elem_of_app; [eauto|done].
  - simplify_eq. close_inv.
  - simplify_eq. close_inv.
  - done.
Qed.

(** A family goroutine that has not returned keeps the closing goroutine
    at or before [wgf.Wait()]. *)
Ltac fam_running :=
  match goal with
  | Hfd : (2 <= closer_rank ?c)%nat -> Forall _ (_ ++ ?pc :: _) |- _ =>
      let E := fresh "Hrank" in
      assert (closer_rank c <= 1)%nat as E
        by (destruct (decide (2 <= closer_rank c)%nat) as [Hge|]; [|lia];
            apply Hfd, Forall_app in Hge as [_ Hge]; by inversion Hge);
      clear Hfd
  end.

(** Once a goroutine exists, [main] is past the listing. *)
Ltac main_running :=
  match goal with
  | Hq : main_started ?m = false -> _ = _ |- _ =>
      let E := fresh "Hstarted" in
      assert (main_started m = true) as E
        by (destruct (main_started m); [done|];
            specialize (Hq eq_refl);
            first [apply (f_equal fams) in Hq; simpl in Hq;
                   by destruct (app_cons_not_nil _ _ _ (eq_sym Hq))
                  |apply (f_equal workers) in Hq; simpl in Hq;
                   by destruct (app_cons_not_nil _ _ _ (eq_sym Hq))]);
      clear Hq; rewrite ?E in *
  end.

Lemma step_fam_Inv (i : nat) (pc : fam_pc) (s s' : state) :
  Inv n s -> fams s !! i = Some pc -> step_fam n i pc s = Next s' -> Inv n s'.
Proof.
  intros HI Hi Hs. destruct s as [m fs ws c wf wp [icap ibuf icl] [pcap pbuf pcl] rc].
  unfold step_fam in Hs. simpl in Hi, Hs.
  destruct (lookup_split _ _ _ Hi) as (l1 & l2 & -> & _ & Hins). clear Hi.
  open_inv HI. main_running.
  destruct pc as [famID|[|plugin rest]|id rest| |]; simpl in *;
    list_norm; [fam_running..|done].
  - destruct (FamilyDetails n famID) as [famDetails|e] eqn:Hfam; simplify_eq;
      rewrite Hins; close_inv.
    all: unfold ids_of_family in *; rewrite Hfam in *; done.
  - simplify_eq. rewrite Hins. close_inv.
  - outcome_cases. simplify_eq. rewrite Hins. close_inv.
  - outcome_cases. simplify_eq. rewrite Hins. close_inv.
  - outcome_cases. simplify_eq. rewrite Hins. close_inv.
Qed.

(** Membership of [WExit] after a worker has moved. *)
Ltac exit_cases :=
  match goal with
  | Hex : WExit ∈ _ ++ _ :: _ -> _ /\ _ |- WExit ∈ _ ++ _ :: _ -> _ =>
      let Hin := fresh "Hin" in
      intros Hin; apply elem_of_app in Hin as [Hin|Hin];
      [|apply elem_of_cons in Hin as [Hin|Hin]];
      [destruct Hex as [? ?]; [by apply elem_of_app; left|]
      |try discriminate Hin
      |destruct Hex as [? ?]; [by apply elem_of_app; right; apply elem_of_cons; right|]];
      try done; try (split; congruence)
  end.

Lemma step_worker_Inv (j : nat) (pc : worker_pc) (s s' : state) :
  Inv n s -> workers s !! j = Some pc -> step_worker n j pc s = Next s' -> Inv n s'.
Proof.
  intros HI Hj Hs. destruct s as [m fs ws c wf wp [icap ibuf icl] [pcap pbuf pcl] rc].
  unfold step_worker in Hs. simpl in Hj, Hs.
  destruct (lookup_split _ _ _ Hj) as (l1 & l2 & -> & _ & Hins). clear Hj.
  open_inv HI. main_running.
  destruct pc as [|id| |plugin| |]; simpl in *; list_norm; [..|done].
  - outcome_cases; simplify_eq; rewrite Hins; close_inv; exit_cases.
  - unfold record_of, plugin_of in Hacc.
    destruct (PluginDetails n id) as [plugin|e] eqn:Hplug; simplify_eq;
      rewrite Hins; close_inv; try exit_cases.
  - outcome_cases; simplify_eq; rewrite Hins; close_inv; try exit_cases.
  - outcome_cases; simplify_eq; rewrite Hins; close_inv; try exit_cases.
  - outcome_cases; simplify_eq; rewrite Hins; close_inv; try exit_cases.
Qed.

Lemma step_closer_Inv (s s' : state) : Inv n s -> step_closer s = Next s' -> Inv n s'.
Proof.
  intros HI Hs. destruct s as [m fs ws c wf wp [icap ibuf icl] [pcap pbuf pcl] rc].
  unfold step_closer in Hs. open_inv HI.
  destruct c; simpl in *; try done.
  all: assert (main_started_closer m = true) as Hmc
    by (destruct (main_started_closer m); [done|];
        by destruct Hc as [_ Hc]; specialize (Hc eq_refl)).
  all: assert (main_started m = true) as Hstarted by (by destruct m as [| | | | | |[]]).
  all: outcome_cases; simplify_eq; close_inv.
  all: try (rewrite Hmc; split; discriminate).
  intros _. apply fam_live_zero. lia.
Qed.

Lemma step_caller_Inv (s s' : state) : Inv n s -> step_caller s = Next s' -> Inv n s'.
Proof.
  intros HI Hs. destruct s as [m fs ws c wf wp [icap ibuf icl] [pcap pbuf pcl] rc].
  unfold step_caller in Hs. open_inv HI.
  destruct m as [| | | | | |[|e]]; try done. unfold Chan.recv in Hs. simpl in *.
  destruct pbuf as [|plugin pbuf]; [by destruct pcl|]. simplify_eq. close_inv.
Qed.

Theorem step_Inv (t : tid) (s s' : state) : Inv n s -> step n t s = Next s' -> Inv n s'.
Proof.
  intros HI Hs. destruct t as [|i|j| |]; simpl in Hs.
  - by eapply step_main_Inv.
  - destruct (fams s !! i) as [pc|] eqn:Hi; [|done]. by eapply step_fam_Inv.
  - destruct (workers s !! j) as [pc|] eqn:Hj; [|done]. by eapply step_worker_Inv.
  - by eapply step_closer_Inv.
  - by eapply step_caller_Inv.
Qed.

Theorem reachable_Inv (s : state) : reachable n s -> Inv n s.
Proof.
  apply reachable_invariant; [apply Inv_init|]. intros t s1 s2. apply step_Inv.
Qed.

(** *** No action panics *)

Ltac panic_cases H :=
  unfold omap_outcome, WaitGroup.Done, WaitGroup.Add, WaitGroup.Wait,
    Chan.send, Chan.close, Chan.recv in H; simpl in H;
  repeat match type of H with
  | context [if ?b then _ else _] => split_on b; try discriminate H
  | context [match ?l with [] => _ | _ :: _ => _ end] => split_on l; try discriminate H
  end.

Lemma Inv_no_panic (t : tid) (s : state) : Inv n s -> step n t s <> Panic.
Proof.
  intros HI Hs. destruct s as [m fs ws c wf wp [icap ibuf icl] [pcap pbuf pcl] rc].
  destruct t as [|i|j| |]; simpl in Hs.
  - unfold step_main in Hs. open_inv HI.
    destruct m as [|[|family rest]|family rest|i| | |r]; simpl in *; try done.
    + by destruct (PluginFamilies n).
    + panic_cases Hs. arith.
    + panic_cases Hs.
  - destruct (fs !! i) as [pc|] eqn:Hi; [|done].
    destruct (lookup_split _ _ _ Hi) as (l1 & l2 & -> & _ & Hins). clear Hi.
    unfold step_fam in Hs. open_inv HI.
    destruct pc as [famID|[|plugin rest]|id rest| |]; simpl in *; list_norm;
      try done; fam_running.
    + by destruct (FamilyDetails n famID).
    + panic_cases Hs. arith.
    + panic_cases Hs. destruct c; simpl in *; try done; lia.
    + panic_cases Hs. arith.
  - destruct (ws !! j) as [pc|] eqn:Hj; [|done].
    destruct (lookup_split _ _ _ Hj) as (l1 & l2 & -> & _ & Hins). clear Hj.
    unfold step_worker in Hs. open_inv HI.
    destruct pc as [|id| |plugin| |]; simpl in *; list_norm; try done.
    + panic_cases Hs.
    + by destruct (PluginDetails n id).
    + panic_cases Hs. arith.
    + panic_cases Hs. destruct c; simpl in *; try done. specialize (Hw0 ltac:(lia)). lia.
    + panic_cases Hs. arith.
  - unfold step_closer in Hs. open_inv HI.
    destruct c; simpl in *; try done; panic_cases Hs; arith.
  - unfold step_caller in Hs. open_inv HI.
    destruct m as [| | | | | |[|e]]; try done. unfold Chan.recv in Hs. simpl in *.
    destruct pbuf; [by destruct pcl|done].
Qed.

Theorem no_panic (t : tid) (s : state) : reachable n s -> step n t s <> Panic.
Proof. intros Hr. by apply Inv_no_panic, reachable_Inv. Qed.

(** *** Every action uses up weight *)

Ltac unfold_weight :=
  unfold weight, set_main, set_fams, set_workers, set_closer, set_wgf,
    set_wgp, set_idChan, set_plugChan, set_received in *; simpl in *;
  unfold families_weight in *; simpl in *.

Lemma step_weight (t : tid) (s s' : state) :
  step n t s = Next s' -> (weight n s' < weight n s)%nat.
Proof.
  intros Hs. destruct s as [m fs ws c wf wp [icap ibuf icl] [pcap pbuf pcl] rc].
  destruct t as [|i|j| |]; simpl in Hs.
  - unfold step_main in Hs.
    destruct m as [|[|family rest]|family rest|i| | |r]; simpl in *; try done.
    + unfold_weight. unfold listed_families.
      destruct (PluginFamilies n); simplify_eq; simpl; lia.
    + simplify_eq. unfold_weight. lia.
    + outcome_cases. simplify_eq. unfold_weight. lia.
    + simplify_eq. unfold_weight. list_norm. lia.
    + unfold nworkers in *.
      destruct (i <? 10)%nat eqn:Hi; simplify_eq; unfold_weight; list_norm;
        unfold nworkers; arith.
    + simplify_eq. unfold_weight. lia.
    + simplify_eq. unfold_weight. lia.
  - destruct (fs !! i) as [pc|] eqn:Hi; [|done].
    destruct (lookup_split _ _ _ Hi) as (l1 & l2 & -> & _ & Hins). clear Hi.
    unfold step_fam in Hs.
    destruct pc as [famID|[|plugin rest]|id rest| |]; simpl in *; try done.
    + destruct (FamilyDetails n famID) eqn:Hfam; simplify_eq; rewrite Hins;
        unfold_weight; list_norm; unfold ids_of_family; rewrite ?Hfam, ?length_fmap; simpl; lia.
    + simplify_eq. rewrite Hins. unfold_weight. list_norm. lia.
    + outcome_cases. simplify_eq. rewrite Hins. unfold_weight. list_norm. lia.
    + outcome_cases. simplify_eq. rewrite Hins. unfold_weight. list_norm. lia.
    + outcome_cases. simplify_eq. rewrite Hins. unfold_weight. list_norm. lia.
  - destruct (ws !! j) as [pc|] eqn:Hj; [|done].
    destruct (lookup_split _ _ _ Hj) as (l1 & l2 & -> & _ & Hins). clear Hj.
    unfold step_worker in Hs.
    destruct pc as [|id| |plugin| |]; simpl in *; try done.
    + outcome_cases; simplify_eq; rewrite Hins; unfold_weight; list_norm; lia.
    + destruct (PluginDetails n id); simplify_eq; rewrite Hins;
        unfold_weight; list_norm; lia.
    + outcome_cases; simplify_eq; rewrite Hins; unfold_weight; list_norm; lia.
    + outcome_cases; simplify_eq; rewrite Hins; unfold_weight; list_norm; lia.
    + outcome_cases; simplify_eq; rewrite Hins; unfold_weight; list_norm; lia.
  - unfold step_closer in Hs.
    destruct c; simpl in *; try done; outcome_cases; simplify_eq; unfold_weight; lia.
  - unfold step_caller in Hs.
    destruct m as [| | | | | |[|e]]; try done. unfold Chan.recv in Hs. simpl in *.
    destruct pbuf as [|plugin pbuf]; [by destruct pcl|]. simplify_eq. unfold_weight. lia.
Qed.

(** *** A state where nothing moves is a finished run *)

Lemma stuck_idle (t : tid) (s : state) : Inv n s -> stuck n s -> step n t s = Idle.
Proof.
  intros HI Hst. specialize (Hst t). pose proof (Inv_no_panic t s HI) as Hp.
  by destruct (step n t s) as [s'| |]; [destruct (Hst s')| |].
Qed.

Lemma main_idle (s : state) : step_main n s = Idle -> exists r, main s = MDone r.
Proof.
  unfold step_main. destruct (main s) as [|[|family rest]|family rest|i| | |r];
    intros Hs; eauto; try done.
  - by destruct (PluginFamilies n).
  - panic_cases Hs.
  - by destruct (i <? nworkers)%nat.
Qed.

Lemma fam_idle (i : nat) (pc : fam_pc) (s : state) :
  step_fam n i pc s = Idle ->
  pc = FDone \/ (Chan.cap (idChan s) <= length (Chan.buf (idChan s)))%nat.
Proof.
  unfold step_fam. destruct pc as [famID|[|plugin rest]|id rest| |];
    intros Hs; auto; try done.
  - by destruct (FamilyDetails n famID).
  - panic_cases Hs.
  - panic_cases Hs. arith.
  - panic_cases Hs.
Qed.

Lemma worker_idle (j : nat) (pc : worker_pc) (s : state) :
  step_worker n j pc s = Idle ->
  (pc = WRecv /\ Chan.buf (idChan s) = [] /\ Chan.closed (idChan s) = false)
  \/ pc = WExit
  \/ (Chan.cap (plugChan s) <= length (Chan.buf (plugChan s)))%nat.
Proof.
  unfold step_worker. destruct pc as [|id| |plugin| |]; intros Hs; auto; try done.
  - left. unfold Chan.recv in Hs.
    destruct (Chan.buf (idChan s)); [|done]. by destruct (Chan.closed (idChan s)).
  - by destruct (PluginDetails n id).
  - panic_cases Hs.
  - panic_cases Hs. arith.
  - panic_cases Hs.
Qed.

Lemma closer_idle (s : state) :
  step_closer s = Idle ->
  closer s = CNone \/ (closer s = CWaitF /\ wgf s <> 0)
  \/ (closer s = CWaitP /\ wgp s <> 0) \/ closer s = CDone.
Proof.
  unfold step_closer. destruct (closer s); intros Hs; auto.
  - right; left. panic_cases Hs. split; [done|]. by apply Z.eqb_neq.
  - panic_cases Hs.
  - right; right; left. panic_cases Hs. split; [done|]. by apply Z.eqb_neq.
  - panic_cases Hs.
Qed.

Lemma caller_idle (s : state) :
  main s = MDone RetChan -> step_caller s = Idle -> Chan.buf (plugChan s) = [].
Proof.
  unfold step_caller. intros ->. unfold Chan.recv.
  by destruct (Chan.buf (plugChan s)).
Qed.

Theorem stuck_completed (s : state) :
  Inv n s -> stuck n s ->
  (exists e, main s = MDone (RetErr e))
  \/ (main s = MDone RetChan /\ completed s /\ all_returned s).
Proof.
  intros HI Hst.
  destruct (main_idle s (stuck_idle TMain s HI Hst)) as [[|e] Hm]; [right|by eauto].
  pose proof (caller_idle s Hm (stuck_idle TCaller s HI Hst)) as Hpbuf.
  pose proof (closer_idle s (stuck_idle TCloser s HI Hst)) as Hcl.
  assert (forall j pc, workers s !! j = Some pc ->
            (pc = WRecv /\ Chan.buf (idChan s) = [] /\ Chan.closed (idChan s) = false)
            \/ pc = WExit) as Hws.
  { intros j pc Hj. pose proof (stuck_idle (TWorker j) s HI Hst) as Hi.
    simpl in Hi. rewrite Hj in Hi. apply worker_idle in Hi as [?|[?|Hfull]]; auto.
    destruct (inv_plug_cap _ _ HI) as [Hcap _]. rewrite Hpbuf, Hcap in Hfull.
    simpl in Hfull. lia. }
  assert (Chan.buf (idChan s) = []) as Hibuf.
  { pose proof (inv_workers _ _ HI) as Hlen. rewrite Hm in Hlen. simpl in Hlen.
    destruct (workers s) as [|w ws] eqn:Hw; [done|].
    destruct (Hws 0%nat w eq_refl) as [(_ & ? & _)| ->]; [done|].
    apply (inv_exit _ _ HI). rewrite Hw. by left. }
  assert (Forall (fun pc => pc = FDone) (fams s)) as Hfs.
  { apply Forall_lookup. intros i pc Hi.
    pose proof (stuck_idle (TFam i) s HI Hst) as Hidle.
    simpl in Hidle. rewrite Hi in Hidle. apply fam_idle in Hidle as [?|Hfull]; [done|].
    destruct (inv_id_cap _ _ HI) as [Hcap _]. rewrite Hibuf, Hcap in Hfull.
    simpl in Hfull. lia. }
  assert (sum_list_with worker_owes (workers s) = 0%nat) as Howes.
  { apply sum_list_with_all_zero, Forall_lookup. intros j pc Hj.
    destruct (Hws j pc Hj) as [(Hpc & _)|Hpc]; by rewrite Hpc. }
  assert (closer s = CDone) as Hc.
  { pose proof (inv_closer _ _ HI) as Hcn. pose proof (inv_wgf _ _ HI) as Hwgf.
    pose proof (inv_wgp _ _ HI) as Hwgp.
    rewrite Hm in Hcn, Hwgf. simpl in *.
    rewrite (sum_list_with_all_zero fam_live) in Hwgf
      by (eapply Forall_impl; [exact Hfs|]; by intros ? ->).
    rewrite (sum_list_with_all_zero fam_owes) in Hwgp
      by (eapply Forall_impl; [exact Hfs|]; by intros ? ->).
    rewrite Hibuf, Howes in Hwgp. simpl in *.
    destruct Hcl as [Hcl|[[_ ?]|[[_ ?]|?]]]; try done. by apply Hcn in Hcl. }
  pose proof (inv_id_closed _ _ HI) as Hicl. pose proof (inv_plug_closed _ _ HI) as Hpcl.
  rewrite Hc in Hicl, Hpcl. simpl in *.
  repeat split; try done.
  apply Forall_lookup. intros j pc Hj.
  destruct (Hws j pc Hj) as [(_ & _ & ?)|?]; [congruence|done].
Qed.

(** *** Every run ends, and can be run to its end *)

Lemma exec_weight (sched : list tid) (s s' : state) :
  exec n sched s = Next s' -> (length sched + weight n s' <= weight n s)%nat.
Proof.
  revert s. induction sched as [|t sched IH]; simpl; intros s Hs.
  - simplify_eq. lia.
  - destruct (step n t s) as [s1| |] eqn:Ht; try done.
    apply step_weight in Ht. apply IH in Hs. lia.
Qed.

Lemma first_enabled_Some (ts : list tid) (s : state) (t : tid) (s' : state) :
  first_enabled n ts s = Some (t, s') -> step n t s = Next s'.
Proof.
  induction ts as [|t0 ts IH]; simpl; [done|].
  destruct (step n t0 s) eqn:Ht0; intros Hf; auto. by simplify_eq.
Qed.

Lemma first_enabled_None (ts : list tid) (s : state) (t : tid) (s' : state) :
  first_enabled n ts s = None -> t ∈ ts -> step n t s <> Next s'.
Proof.
  induction ts as [|t0 ts IH]; simpl; intros Hf Hin.
  - by apply elem_of_nil in Hin.
  - apply elem_of_cons in Hin as [->|Hin].
    + by destruct (step n t0 s).
    + destruct (step n t0 s); [done|by apply IH..].
Qed.

Lemma candidates_complete (t : tid) (s s' : state) :
  step n t s = Next s' -> t ∈ candidates s.
Proof.
  unfold candidates. destruct t as [|i|j| |]; simpl; intros Hs.
  - by left.
  - destruct (fams s !! i) eqn:Hi; [|done]. apply lookup_lt_Some in Hi.
    do 3 (apply elem_of_cons; right). apply elem_of_app; right.
    apply list_elem_of_fmap. exists i. split; [done|]. apply elem_of_seq. lia.
  - destruct (workers s !! j) eqn:Hj; [|done]. apply lookup_lt_Some in Hj.
    do 3 (apply elem_of_cons; right). apply elem_of_app; left.
    apply list_elem_of_fmap. exists j. split; [done|]. apply elem_of_seq. lia.
  - right. by left.
  - do 2 right. by left.
Qed.

Lemma run_exec (fuel : nat) (s : state) :
  exec n (run n fuel s).1 s = Next (run n fuel s).2.
Proof.
  revert s. induction fuel as [|fuel IH]; intros s; [done|].
  cbn [run]. destruct (first_enabled n (candidates s) s) as [[t s1]|] eqn:Hf; [|done].
  apply first_enabled_Some in Hf. specialize (IH s1).
  destruct (run n fuel s1) as [sched s2]. simpl in *. by rewrite Hf.
Qed.

Lemma run_stuck (fuel : nat) (s : state) :
  (weight n s <= fuel)%nat -> stuck n (run n fuel s).2.
Proof.
  revert s. induction fuel as [|fuel IH]; intros s Hw.
  - intros t s' Hs. cbn [run snd] in Hs. apply step_weight in Hs. lia.
  - cbn [run]. destruct (first_enabled n (candidates s) s) as [[t s1]|] eqn:Hf.
    + pose proof (first_enabled_Some _ _ _ _ Hf) as Hs. apply step_weight in Hs.
      specialize (IH s1 ltac:(lia)). by destruct (run n fuel s1).
    + intros t s' Hs. eapply first_enabled_None; eauto using candidates_complete.
Qed.

(** From every reachable state some schedule leads to a state where nothing
    moves any more (the caller reading the channel to its end). *)
Theorem run_to_the_end (s : state) :
  reachable n s ->
  exists sched s', exec n sched s = Next s' /\ reachable n s' /\ stuck n s'.
Proof.
  intros [sched0 Hs]. exists (run n (weight n s) s).1, (run n (weight n s) s).2.
  pose proof (run_exec (weight n s) s) as He. split; [done|]. split.
  - exists (sched0 ++ (run n (weight n s) s).1). by rewrite (exec_app _ _ _ _ _ Hs).
  - by apply run_stuck.
Qed.

(** *** What a closed output channel means *)

Lemma worker_owes_zero (ws : list worker_pc) :
  sum_list_with worker_owes ws = 0%nat ->
  ws ≫= worker_ids = [] /\ ws ≫= worker_records = [].
Proof.
  intros Hz%sum_list_with_zero. split; apply bind_all_nil;
    (eapply Forall_impl; [exact Hz|]); by intros [].
Qed.

Lemma Inv_drained (s : state) :
  Inv n s -> (4 <= closer_rank (closer s))%nat ->
  pending_ids n s = [] /\ held_records s = [].
Proof.
  intros HI Hrank.
  pose proof (inv_wgp _ _ HI) as Hwgp. rewrite (inv_wgp_zero _ _ HI Hrank) in Hwgp.
  pose proof (inv_fams_done _ _ HI ltac:(lia)) as Hfs.
  assert (main_started_closer (main s) = true) as Hm.
  { destruct (main_started_closer (main s)) eqn:Hm; [done|].
    apply (inv_closer _ _ HI) in Hm. rewrite Hm in Hrank. simpl in Hrank. lia. }
  destruct (worker_owes_zero (workers s)) as [Hwi Hwr]; [lia|].
  unfold pending_ids, held_records. rewrite Hwi, Hwr.
  assert (Chan.buf (idChan s) = []) as -> by (apply length_zero_iff_nil; lia).
  rewrite (bind_all_nil (fam_ids n)) by (eapply Forall_impl; [exact Hfs|]; by intros ? ->).
  by destruct (main s) as [| | | | | |[|e]].
Qed.

Lemma closed_rank (s : state) :
  Inv n s -> Chan.closed (plugChan s) = true -> closer s = CDone.
Proof.
  intros HI Hcl. rewrite (inv_plug_closed _ _ HI) in Hcl.
  by destruct (closer s).
Qed.

Theorem closed_emitted (s : state) :
  reachable n s -> Chan.closed (plugChan s) = true -> emitted s ≡ₚ expected n.
Proof.
  intros HI%reachable_Inv Hcl. pose proof (closed_rank s HI Hcl) as Hc.
  destruct (Inv_drained s HI) as [Hp Hh]; [rewrite Hc; simpl; lia|].
  pose proof (inv_accounted _ _ HI) as Hacc. unfold accounted in Hacc.
  by rewrite Hp, Hh, records_of_nil, !app_nil_r in Hacc.
Qed.


(** *** The expected records, counted *)

Lemma length_records_of (ids : list Z) :
  length (records_of n ids) =
  length (filter (fun id => succeeded (PluginDetails n id) = true) ids).
Proof.
  induction ids as [|id ids IH]; [done|].
  rewrite records_of_cons, length_app, IH, filter_cons.
  unfold record_of, plugin_of. by destruct (PluginDetails n id).
Qed.

Lemma ids_of_families_filter (families : list PluginFamily) :
  ids_of_families n
    (filter (fun family => succeeded (FamilyDetails n (PluginFamily_ID family)) = true)
            families)
  = ids_of_families n families.
Proof.
  unfold ids_of_families. induction families as [|family families IH]; [done|].
  rewrite filter_cons, (bind_cons _ family families). unfold ids_of_family at 2.
  destruct (FamilyDetails n (PluginFamily_ID family)) eqn:Hfam; simpl.
  - unfold ids_of_family at 1. rewrite Hfam. f_equal. apply IH.
  - apply IH.
Qed.

Lemma length_expected : length (expected n) = length (ok_ids n).
Proof.
  unfold expected, ok_ids, listed_ids, ok_families.
  by rewrite length_records_of, ids_of_families_filter.
Qed.

(** *** Which actions write to the channels *)



(** Only a family goroutine at [idChan <- plugin.ID] adds to the queue, and
    that action leaves [wgp] alone. *)
Lemma step_idChan (t : tid) (s s' : state) :
  step n t s = Next s' ->
  (length (Chan.buf (idChan s')) <= length (Chan.buf (idChan s)))%nat
  \/ exists i id rest, t = TFam i /\ fams s !! i = Some (FSend id rest)
                      /\ Chan.buf (idChan s') = Chan.buf (idChan s) ++ [id]
                      /\ wgp s' = wgp s.
Proof.
  intros Hs. destruct s as [m fs ws c wf wp [icap ibuf icl] [pcap pbuf pcl] rc].
  destruct t as [|i|j| |]; simpl in Hs.
  - left. unfold step_main in Hs.
    destruct m as [|[|family rest]|family rest|i| | |r]; simpl in *; try done;
      outcome_cases; repeat case_match; by simplify_eq.
  - destruct (fs !! i) as [pc|] eqn:Hi; [|done]. unfold step_fam in Hs.
    destruct pc as [famID|[|plugin rest]|id rest| |]; simpl in *; try done;
      outcome_cases; repeat case_match; simplify_eq; auto.
    right. by exists i, id, rest.
  - left. destruct (ws !! j) as [pc|] eqn:Hj; [|done]. unfold step_worker in Hs.
    destruct pc as [|id| |plugin| |]; simpl in *; try done;
      outcome_cases; repeat case_match; simplify_eq; simpl; auto.
  - left. unfold step_closer in Hs.
    destruct c; simpl in *; try done; outcome_cases; by simplify_eq.
  - left. unfold step_caller in Hs.
    destruct m as [| | | | | |[|e]]; try done. unfold Chan.recv in Hs. simpl in *.
    destruct pbuf as [|plugin pbuf]; [by destruct pcl|]. by simplify_eq.
Qed.

(** ** What [AllPlugins] guarantees *)







Lemma closer_started (s : state) :
  Inv n s -> closer s <> CNone -> main_ids n (main s) = [] /\ main_unspawned n (main s) = []
                                  /\ main_live (main s) = 0%nat.
Proof.
  intros HI Hc. destruct (main_started_closer (main s)) eqn:Hm.
  - by destruct (main s) as [| | | | | |[|e]].
  - by apply (inv_closer _ _ HI) in Hm.
Qed.

Lemma sum_list_with_lookup {A : Type} (f : A -> nat) (l : list A) (i : nat) (x : A) :
  l !! i = Some x -> (f x <= sum_list_with f l)%nat.
Proof.
  intros Hi. destruct (lookup_split _ _ _ Hi) as (l1 & l2 & -> & _).
  rewrite sum_list_with_app. simpl. lia.
Qed.


(** C4. The action that puts an ID on [idChan] leaves [wgp] as it is, and
    [wgp] already counts that ID before the action; [wgp] is never below the
    number of IDs on the queue; and once the closing goroutine exists, both
    counters at zero mean that no ID is left anywhere on its way to a worker
    and no fetched record is left unsent. *)
Theorem AllPlugins_counted_before_visible (s : state) :
  reachable n s ->
  (forall t s' id,
      step n t s = Next s' ->
      Chan.buf (idChan s') = Chan.buf (idChan s) ++ [id] ->
      wgp s' = wgp s /\ Z.of_nat (length (Chan.buf (idChan s'))) <= wgp s)
  /\ Z.of_nat (length (Chan.buf (idChan s))) <= wgp s
  /\ (closer s <> CNone -> wgf s = 0 -> wgp s = 0 ->
      pending_ids n s = [] /\ held_records s = []).
Proof.
  intros Hr. pose proof (reachable_Inv s Hr) as HI.
  pose proof (inv_wgp _ _ HI) as Hwgp. split; [|split].
  - intros t s' id Hs Hbuf.
    destruct (step_idChan t s s' Hs) as [Hle|(i & id' & rest & _ & Hi & _ & Hw)].
    + rewrite Hbuf, length_app in Hle. simpl in Hle. lia.
    + split; [done|]. apply (sum_list_with_lookup fam_owes) in Hi. simpl in Hi.
      rewrite Hbuf, length_app. simpl. lia.
  - lia.
  - intros Hc Hf Hp. destruct (closer_started s HI Hc) as (Hmi & _ & Hml).
    pose proof (inv_wgf _ _ HI) as Hwgf.
    destruct (worker_owes_zero (workers s)) as [Hwi Hwr]; [lia|].
    split; [|done]. unfold pending_ids. rewrite Hwi, Hmi.
    assert (Chan.buf (idChan s) = []) as -> by (apply length_zero_iff_nil; lia).
    rewrite (bind_all_nil (fam_ids n)); [done|].
    eapply Forall_impl; [apply fam_live_zero; lia|]. by intros ? ->.
Qed.

(** [AllPlugins] returns to its caller, whatever the remote side answers. *)
Theorem AllPlugins_returns :
  exists sched s r, exec n sched init = Next s /\ main s = MDone r.
Proof.
  destruct (run_to_the_end init (reachable_init n)) as (sched & s & He & Hr & Hst).
  destruct (stuck_completed s (reachable_Inv s Hr) Hst) as [[e Hm]|[Hm _]]; eauto.
Qed.

(** C5. When [AllPlugins] has returned, it has returned an error exactly
    when [PluginFamilies] failed, that error is the one of [PluginFamilies],
    and what it returns is read off the listing alone, so that no failure of
    [FamilyDetails] or [PluginDetails] reaches the caller; when it returns an
    error, no goroutine was started, nothing was counted or sent, and no
    channel is returned. *)
Theorem AllPlugins_error_return (s : state) (r : retval) :
  reachable n s ->
  main s = MDone r ->
  r = ret_of_listing n
  /\ (forall e, r = RetErr e <-> PluginFamilies n = Err e)
  /\ (forall e, r = RetErr e -> s = set_main (MDone (RetErr e)) init).
Proof.
  intros Hr Hm. pose proof (reachable_Inv s Hr) as HI.
  pose proof (inv_listing _ _ HI) as Hl. pose proof (inv_quiet _ _ HI) as Hq.
  rewrite Hm in Hl, Hq. unfold ret_of_listing. destruct r as [|e]; simpl in *.
  - destruct Hl as [families Hl]. rewrite Hl. repeat split; done.
  - rewrite Hl. repeat split; try congruence.
    intros e' [= <-]. by apply Hq.
Qed.





(** C8 (as amended). The workers are ten, the literal of the worker loop:
    there are never more than ten, hence never more than ten [PluginDetails]
    calls in flight; once [AllPlugins] has returned its channel there are
    exactly ten; and a worker returns only when [idChan] is closed and
    empty. *)
Theorem AllPlugins_worker_bound (s : state) :
  reachable n s ->
  (length (workers s) <= 10)%nat
  /\ (in_flight s <= 10)%nat
  /\ (main s = MDone RetChan -> length (workers s) = 10%nat)
  /\ (WExit ∈ workers s -> Chan.closed (idChan s) = true /\ Chan.buf (idChan s) = []).
Proof.
  intros HI%reachable_Inv. repeat split.
  - apply (inv_workers_le _ _ HI).
  - etrans; [|apply (inv_workers_le _ _ HI)].
    apply sum_list_with_le. intros []; simpl; lia.
  - intros Hm. rewrite (inv_workers _ _ HI), Hm. done.
  - by apply (inv_exit _ _ HI).
  - by apply (inv_exit _ _ HI).
Qed.

(** ** More on [AllPlugins] *)

(** Only [main] at [wgf.Add(1)] raises [wgf]. *)
Lemma step_wgf (t : tid) (s s' : state) :
  step n t s = Next s' ->
  wgf s' <= wgf s
  \/ exists family rest, t = TMain /\ main s = MRange (family :: rest).
Proof.
  intros Hs. destruct s as [m fs ws c wf wp [icap ibuf icl] [pcap pbuf pcl] rc].
  destruct t as [|i|j| |]; simpl in Hs.
  - unfold step_main in Hs.
    destruct m as [|[|family rest]|family rest|i| | |r]; simpl in *; try done;
      [left..|right; eauto|left|left|left|left]; repeat case_match; simplify_eq; simpl; lia.
  - left. destruct (fs !! i) as [pc|] eqn:Hi; [|done]. unfold step_fam in Hs.
    destruct pc as [famID|[|plugin rest]|id rest| |]; simpl in *; try done;
      outcome_cases; repeat case_match; simplify_eq; simpl; lia.
  - left. destruct (ws !! j) as [pc|] eqn:Hj; [|done]. unfold step_worker in Hs.
    destruct pc as [|id| |plugin| |]; simpl in *; try done;
      outcome_cases; repeat case_match; simplify_eq; simpl; lia.
  - left. unfold step_closer in Hs.
    destruct c; simpl in *; try done; outcome_cases; simplify_eq; simpl; lia.
  - left. unfold step_caller in Hs.
    destruct m as [| | | | | |[|e]]; try done. unfold Chan.recv in Hs. simpl in *.
    destruct pbuf as [|plugin pbuf]; [by destruct pcl|]. simplify_eq. simpl. lia.
Qed.

(** Only a family goroutine at [wgp.Add(1)] raises [wgp]. *)
Lemma step_wgp (t : tid) (s s' : state) :
  step n t s = Next s' ->
  wgp s' <= wgp s
  \/ exists i plugin rest, t = TFam i /\ fams s !! i = Some (FRange (plugin :: rest)).
Proof.
  intros Hs. destruct s as [m fs ws c wf wp [icap ibuf icl] [pcap pbuf pcl] rc].
  destruct t as [|i|j| |]; simpl in Hs.
  - left. unfold step_main in Hs.
    destruct m as [|[|family rest]|family rest|i| | |r]; simpl in *; try done;
      outcome_cases; repeat case_match; simplify_eq; simpl; lia.
  - destruct (fs !! i) as [pc|] eqn:Hi; [|done]. unfold step_fam in Hs.
    destruct pc as [famID|[|plugin rest]|id rest| |]; simpl in *; try done;
      [left..|right; eauto|left|left]; outcome_cases; repeat case_match;
      simplify_eq; simpl; lia.
  - left. destruct (ws !! j) as [pc|] eqn:Hj; [|done]. unfold step_worker in Hs.
    destruct pc as [|id| |plugin| |]; simpl in *; try done;
      outcome_cases; repeat case_match; simplify_eq; simpl; lia.
  - left. unfold step_closer in Hs.
    destruct c; simpl in *; try done; outcome_cases; simplify_eq; simpl; lia.
  - left. unfold step_caller in Hs.
    destruct m as [| | | | | |[|e]]; try done. unfold Chan.recv in Hs. simpl in *.
    destruct pbuf as [|plugin pbuf]; [by destruct pcl|]. simplify_eq. simpl. lia.
Qed.

Lemma weight_init :
  weight n init =
  (29 + sum_list_with
          (fun family => 5 + 7 * length (ids_of_family n (PluginFamily_ID family)))
          (listed_families n))%nat.
Proof.
  unfold weight. cbn [main init fams workers closer idChan plugChan Chan.buf Chan.make
                        main_weight sum_list_with closer_weight length].
  unfold families_weight.
  assert (forall families,
            sum_list_with
              (fun family => 2 + fam_weight n (FStart (PluginFamily_ID family))) families
            = sum_list_with
                (fun family => 5 + 7 * length (ids_of_family n (PluginFamily_ID family)))
                families)%nat as ->; [|lia].
  intros families. induction families as [|family families IH];
    cbn [sum_list_with]; [done|].
  rewrite IH. cbn [fam_weight]. lia.
Qed.

(** X1. No run of [AllPlugins] goes on for ever: whatever the schedule, the
    actions of all goroutines and of the caller together number at most
    29 plus, for each listed family, 5 plus 7 times the number of plugin IDs
    that [FamilyDetails] lists for it. *)
Theorem AllPlugins_runs_are_finite (sched : list tid) (s : state) :
  exec n sched init = Next s ->
  (length sched <=
   29 + sum_list_with
          (fun family => 5 + 7 * length (ids_of_family n (PluginFamily_ID family)))
          (listed_families n))%nat.
Proof. intros He%exec_weight. rewrite weight_init in He. lia. Qed.



Lemma length_worker_records (ws : list worker_pc) :
  (length (ws ≫= worker_records) <= length ws)%nat.
Proof.
  induction ws as [|w ws IH]; [done|]. rewrite bind_cons, length_app. simpl.
  destruct w; simpl; lia.
Qed.

(** X3. The pipeline holds a bounded amount of data: in every reachable
    state [idChan] buffers at most 20 IDs, [plugChan] at most 20 records,
    and at most 10 fetched records wait in workers to be sent. *)
Theorem AllPlugins_bounded_buffers (s : state) :
  reachable n s ->
  (length (Chan.buf (idChan s)) <= 20)%nat
  /\ (length (Chan.buf (plugChan s)) <= 20)%nat
  /\ (length (held_records s) <= 10)%nat.
Proof.
  intros HI%reachable_Inv. split; [apply (inv_id_cap _ _ HI)|].
  split; [apply (inv_plug_cap _ _ HI)|].
  etrans; [apply length_worker_records|]. apply (inv_workers_le _ _ HI).
Qed.

(** X4. [plugChan] is closed only when the caller has read all but at most
    20 of the records to deliver; so while the caller has read nothing and
    more than 20 records are to be delivered, the channel stays open. *)
Theorem AllPlugins_caller_must_read (s : state) :
  reachable n s ->
  Chan.closed (plugChan s) = true ->
  (length (ok_ids n) <= length (received s) + 20)%nat.
Proof.
  intros Hr Hcl. pose proof (reachable_Inv s Hr) as HI.
  rewrite <- length_expected, <- (closed_emitted s Hr Hcl).
  unfold emitted. rewrite length_app.
  destruct (inv_plug_cap _ _ HI) as [_ Hcap]. lia.
Qed.

(** X5. Every [Add] happens before the [Wait] on the same wait group: once
    the closing goroutine exists no action raises [wgf], and once it is past
    [wgf.Wait()] no action raises [wgp]. *)
Theorem AllPlugins_add_before_wait (t : tid) (s s' : state) :
  reachable n s ->
  step n t s = Next s' ->
  (closer s <> CNone -> wgf s' <= wgf s)
  /\ ((2 <= closer_rank (closer s))%nat -> wgp s' <= wgp s).
Proof.
  intros Hr Hs. pose proof (reachable_Inv s Hr) as HI. split.
  - intros Hc. destruct (step_wgf t s s' Hs) as [?|(family & rest & _ & Hm)]; [done|].
    destruct (closer_started s HI Hc) as (_ & Hun & _). by rewrite Hm in Hun.
  - intros Hrank. destruct (step_wgp t s s' Hs) as [?|(i & plugin & rest & _ & Hi)]; [done|].
    pose proof (inv_fams_done _ _ HI Hrank) as Hfs.
    by apply (Forall_lookup_1 _ _ _ _ Hfs) in Hi.
Qed.

(** X6. At every point of every run the records sent so far are, as a
    multiset, among the records of the listed plugins whose family fetch and
    own fetch succeed (none invented, none sent twice over), and when
    [plugChan] is closed they are exactly those. *)
Theorem AllPlugins_emitted_multiset (s : state) :
  reachable n s ->
  emitted s ⊆+ expected n
  /\ (Chan.closed (plugChan s) = true -> emitted s ≡ₚ expected n).
Proof.
  intros Hr. split; [|by apply closed_emitted].
  rewrite <- (inv_accounted _ _ (reachable_Inv s Hr)). unfold accounted.
  by apply submseteq_inserts_r.
Qed.

(** X7. What the two counters count: [wgf] is the number of family
    goroutines that have not run their [wgf.Done()], plus one while [main]
    stands between [wgf.Add(1)] and [go]; [wgp] is the number of IDs counted
    and not sent yet, plus those on [idChan], plus the workers that hold an
    ID and have not run their [wgp.Done()]. *)
Theorem AllPlugins_counters (s : state) :
  reachable n s ->
  wgf s = Z.of_nat (sum_list_with fam_live (fams s) + main_live (main s))
  /\ wgp s = Z.of_nat (sum_list_with fam_owes (fams s) + length (Chan.buf (idChan s))
                       + sum_list_with worker_owes (workers s)).
Proof.
  intros HI%reachable_Inv. split; [apply (inv_wgf _ _ HI)|apply (inv_wgp _ _ HI)].
Qed.

Lemma exec_replicate_add (k1 k2 : nat) (t : tid) (s s1 : state) :
  exec n (replicate k1 t) s = Next s1 ->
  exec n (replicate (k1 + k2) t) s = exec n (replicate k2 t) s1.
Proof. intros He. rewrite replicate_add. by apply exec_app. Qed.

(** [main] going through [for _, family := range families]. *)
Lemma exec_main_range
    (rest : list PluginFamily) (fs : list fam_pc) (ws : list worker_pc) (c : close_pc)
    (wf wp : Z) (ic : Chan.chan Z) (pc : Chan.chan PluginDetails_t)
    (rc : list PluginDetails_t) :
  0 <= wf ->
  exec n (replicate (2 * length rest) TMain) (State (MRange rest) fs ws c wf wp ic pc rc)
  = Next (State (MRange []) (fs ++ ((fun family => FStart (PluginFamily_ID family)) <$> rest))
                ws c (wf + Z.of_nat (length rest)) wp ic pc rc).
Proof.
  revert fs wf. induction rest as [|family rest IH]; intros fs wf Hwf.
  - simpl. by rewrite app_nil_r, Z.add_0_r.
  - replace (2 * length (family :: rest))%nat with (2 + 2 * length rest)%nat by (simpl; lia).
    rewrite (exec_replicate_add 2 _ TMain _
               (State (MRange rest) (fs ++ [FStart (PluginFamily_ID family)])
                      ws c (wf + 1) wp ic pc rc)).
    + rewrite IH by lia. simpl. rewrite <- app_assoc. simpl. do 2 f_equal. lia.
    + simpl. unfold step_main. simpl. unfold WaitGroup.Add.
      destruct (wf + 1 <? 0) eqn:Hneg; [apply Z.ltb_lt in Hneg; lia|]. done.
Qed.

(** X8. [AllPlugins] does not wait for any fetch: when the listing
    succeeds, [main] alone, in two actions per family and fifteen more,
    starts every goroutine and returns the channel; at that point no
    [FamilyDetails] or [PluginDetails] call has been made and nothing has
    been sent. *)
Theorem AllPlugins_returns_at_once (families : list PluginFamily) :
  PluginFamilies n = Ok families ->
  exec n (replicate (2 * length families + 15) TMain) init
  = Next (State (MDone RetChan)
                ((fun family => FStart (PluginFamily_ID family)) <$> families)
                (replicate 10 WRecv) CWaitF
                (Z.of_nat (length families)) 0 (Chan.make 20) (Chan.make 20) []).
Proof.
  intros Hlist.
  replace (2 * length families + 15)%nat with (1 + (2 * length families + 14))%nat by lia.
  rewrite (exec_replicate_add 1 _ TMain _
             (State (MRange families) [] [] CNone 0 0 (Chan.make 20) (Chan.make 20) [])).
  - rewrite (exec_replicate_add (2 * length families) 14 TMain _ _
               (exec_main_range families [] [] CNone 0 0 _ _ [] ltac:(lia))).
    reflexivity.
  - simpl. unfold step_main. simpl. by rewrite Hlist.
Qed.

(** *** The remote calls of a run *)







End Pipeline.

(** C8 (as stated). The size of the worker pool cannot be configured:
    whatever the structs and the remote side, no run in which [AllPlugins]
    has returned its channel has a number of workers other than ten. *)
Lemma AllPlugins_pool_not_configurable :
  ~ exists (structs : Structs) (n : Nessus) (s : state),
      reachable n s /\ main s = MDone RetChan /\ length (workers s) <> 10%nat.
Proof.
  intros (structs & n & s & Hr & Hm & Hlen). apply Hlen.
  pose proof (inv_workers _ _ (reachable_Inv n s Hr)) as Hw.
  rewrite Hw, Hm. reflexivity.
Qed.

(** ** [Logout] and [newNessus] *)

Section ClientFacts.

Import Client.

(** C9. [Logout] on a client whose [authCookie] is empty returns nil and
    leaves the client as it is; it logs one line, issues no request (the
    requests on record are the same, and the outcome does not depend on what
    [Request] would do). *)
Theorem Logout_not_logged_in (Request : Request_t) (n : nessusImpl) (w : world) :
  authCookie n = ""%string ->
  Logout Request n w = (None, n, log_Println "Not logged in, nothing to do to logout..." w)
  /\ requests (Logout Request n w).2 = requests w
  /\ (forall Request', Logout Request' n w = Logout Request n w).
Proof.
  intros Hcookie. unfold Logout. rewrite Hcookie. simpl. done.
Qed.

(** C10. With fingerprint verification on, no CA file and no fingerprint,
    [newNessus] returns no client and the error; [NewFingerprintedNessus] on
    an empty slice is such a call. *)
Theorem newNessus_no_fingerprint
    (os : OS) (apiURL accessKey secretKey : string) (isUseApiKey ignoreSSLCertsErrors : bool) :
  newNessus os apiURL "" accessKey secretKey isUseApiKey ignoreSSLCertsErrors true []
  = Return (Err "fingerprint verification enabled, fingerprint must not be empty"%string)
  /\ NewFingerprintedNessus os apiURL []
     = Return (Err "fingerprint verification enabled, fingerprint must not be empty"%string).
Proof. done. Qed.

End ClientFacts.

(** ** The theorems on the small remote sides *)

Section Witnesses.

Import Demo.

Ltac by_running sched := exists sched; vm_compute; reflexivity.




Lemma AllPlugins_counted_before_visible_witness :
  reachable leaf_fails leaf_fails_sending
  /\ forall s',
       step leaf_fails (TFam 0) leaf_fails_sending = Next s' ->
       Chan.buf (idChan s') = Chan.buf (idChan leaf_fails_sending) ++ [2] ->
       wgp s' = wgp leaf_fails_sending
       /\ Z.of_nat (length (Chan.buf (idChan s'))) <= wgp leaf_fails_sending.
Proof.
  assert (reachable leaf_fails leaf_fails_sending) as Hr
    by by_running leaf_fails_sending_sched.
  split; [exact Hr|]. intros s'.
  exact (proj1 (AllPlugins_counted_before_visible leaf_fails leaf_fails_sending Hr)
           (TFam 0) s' 2).
Defined.

Lemma AllPlugins_error_return_witness :
  RetErr "connection refused"%string = ret_of_listing listing_fails
  /\ (forall e, RetErr "connection refused"%string = RetErr e <->
                PluginFamilies listing_fails = Err e)
  /\ (forall e, RetErr "connection refused"%string = RetErr e ->
                listing_fails_end = set_main (MDone (RetErr e)) init).
Proof.
  apply (AllPlugins_error_return listing_fails listing_fails_end).
  - by_running listing_fails_sched.
  - reflexivity.
Defined.



Lemma AllPlugins_worker_bound_witness :
  (length (workers all_succeed_end) <= 10)%nat
  /\ (in_flight all_succeed_end <= 10)%nat
  /\ (main all_succeed_end = MDone RetChan -> length (workers all_succeed_end) = 10%nat)
  /\ (WExit ∈ workers all_succeed_end ->
      Chan.closed (idChan all_succeed_end) = true /\ Chan.buf (idChan all_succeed_end) = []).
Proof.
  apply (AllPlugins_worker_bound all_succeed all_succeed_end).
  by_running all_succeed_sched.
Defined.

Lemma Logout_not_logged_in_witness :
  Client.Logout recording_Request logged_out quiet_world
  = (None, logged_out,
     Client.log_Println "Not logged in, nothing to do to logout..." quiet_world)
  /\ Client.requests (Client.Logout recording_Request logged_out quiet_world).2
     = Client.requests quiet_world
  /\ (forall Request',
        Client.Logout Request' logged_out quiet_world
        = Client.Logout recording_Request logged_out quiet_world).
Proof.
  apply (Logout_not_logged_in recording_Request logged_out quiet_world).
  reflexivity.
Defined.

End Witnesses.

(** ** More on the client *)

Section ClientMore.

Import Client Http.

Ltac req_fin :=
  intros [= <- <-]; repeat split;
  try (by left); try (by right); try (intros; discriminate); try done.

Lemma set_authCookie_same (n : nessusImpl) :
  authCookie n = ""%string -> set_authCookie "" n = n.
Proof. destruct n. simpl. by intros ->. Qed.

Lemma Logout_empty (Request : Request_t) (n : nessusImpl) (w : world) :
  authCookie n = ""%string ->
  Logout Request n w = (None, n, log_Println "Not logged in, nothing to do to logout..." w).
Proof. intros Hc. unfold Logout. by rewrite Hc. Qed.

(** X9. [Logout] returns nil only with the cookie cleared and nothing else
    changed, after which any further [Logout] returns nil without calling
    [Request]; when it returns an error the client is as it was, cookie
    included. *)
Theorem Logout_clears_or_keeps
    (Request : Request_t) (n n' : nessusImpl) (w w' : world) (r : option string) :
  Logout Request n w = (r, n', w') ->
  (r = None ->
     n' = set_authCookie "" n
     /\ forall Request' w2,
          Logout Request' n' w2
          = (None, n', log_Println "Not logged in, nothing to do to logout..." w2))
  /\ (r <> None -> n' = n).
Proof.
  unfold Logout. destruct (String.eqb (authCookie n) "") eqn:Hc.
  - apply String.eqb_eq in Hc. intros [= <- <- <-]. split; [|done]. intros _.
    split; [by rewrite set_authCookie_same|]. intros R' w2. by apply Logout_empty.
  - destruct (Request n _ _ _ _) as [[err|] w2]; intros [= <- <- <-]; split; done.
Qed.

(** X10. The client that [newNessus] returns never has a CA pool: its
    [RootCAs] is nil also when [caCertPath] names a file that was read and
    parsed.  [InsecureSkipVerify] is the flag given, the fingerprint check
    is installed exactly when no CA file is named and verification is asked
    for, and the client starts logged out and not verbose. *)
Theorem newNessus_client
    (os : OS) (url caCertPath ak sk : string) (isUseApiKey ignore verify : bool)
    (certFingerprints : list string) (n : nessusImpl) :
  newNessus os url caCertPath ak sk isUseApiKey ignore verify certFingerprints
  = Return (Ok n) ->
  RootCAs (TLSClientConfig (client n)) = None
  /\ InsecureSkipVerify (TLSClientConfig (client n)) = ignore
  /\ DialTLS (client n)
     = (if (String.length caCertPath =? 0)%nat && verify then Some certFingerprints else None)
  /\ authCookie n = ""%string /\ verbose n = false
  /\ apiURL n = url /\ accessKey n = ak /\ secretKey n = sk.
Proof.
  unfold newNessus.
  destruct (String.length caCertPath =? 0)%nat; simpl.
  - destruct verify; [destruct (length certFingerprints =? 0)%nat; [done|]|];
      destruct (getApiToken _ _ _); intros [= <-]; done.
  - destruct (ReadFile os caCertPath); [|done].
    destruct (AppendCertsFromPEM os v); simpl; [|done].
    destruct (getApiToken _ _ _); intros [= <-]; done.
Qed.

(** X11. [newNessus] returns an error only from the certificate set-up: the
    CA file cannot be read, or holds no certificate, or fingerprint
    verification is asked for with no fingerprint. *)
Theorem newNessus_errors
    (os : OS) (url caCertPath ak sk : string) (isUseApiKey ignore verify : bool)
    (certFingerprints : list string) (err : string) :
  newNessus os url caCertPath ak sk isUseApiKey ignore verify certFingerprints
  = Return (Err err) ->
  (caCertPath <> ""%string
   /\ (ReadFile os caCertPath = Err err
       \/ exists rootPEM,
            ReadFile os caCertPath = Ok rootPEM /\ AppendCertsFromPEM os rootPEM = false
            /\ err = ("could not append certs from PEM " ++ caCertPath)%string))
  \/ (caCertPath = ""%string /\ verify = true /\ certFingerprints = []
      /\ err = "fingerprint verification enabled, fingerprint must not be empty"%string).
Proof.
  unfold newNessus. destruct caCertPath as [|a caCertPath]; simpl.
  - destruct verify; [destruct certFingerprints; simpl|];
      try (destruct (getApiToken _ _ _); done).
    intros [= <-]. by right.
  - destruct (ReadFile os _) as [rootPEM|e] eqn:Hread.
    + destruct (AppendCertsFromPEM os rootPEM) eqn:Happ; simpl.
      * destruct (getApiToken _ _ _); done.
      * intros [= <-]. left. split; [done|]. right. by exists rootPEM.
    + intros [= <-]. left. split; [done|]. by left.
Qed.

(** X12. When the token page cannot be fetched, [newNessus] returns no
    client, and the constructors without certificate set-up do not return
    at all: they end the process through [log.Fatal]. *)
Theorem newNessus_unreachable (os : OS) (url err : string) :
  (forall c, Get os c (url ++ "/" ++ NessusApiTokenPath)%string = Err err) ->
  (forall caCertPath ak sk isUseApiKey ignore verify certFingerprints n,
      newNessus os url caCertPath ak sk isUseApiKey ignore verify certFingerprints
      <> Return (Ok n))
  /\ NewInsecureNessus os url = Fatal
  /\ (forall ak sk, NewInsecureNessusWithAPICredentials os url ak sk = Fatal).
Proof.
  intros Hget.
  assert (forall c, getApiToken os url c = Fatal) as Htok
    by (intros c; unfold getApiToken; by rewrite Hget).
  split; [|split].
  - intros caCertPath ak sk isUseApiKey ignore verify fps n. unfold newNessus.
    rewrite !Htok. repeat case_match; done.
  - unfold NewInsecureNessus, newNessus. simpl. by rewrite Htok.
  - intros ak sk. unfold NewInsecureNessusWithAPICredentials, newNessus. simpl.
    by rewrite Htok.
Qed.

(** X13. [Logout] on a client fresh from [newNessus] returns nil, leaves it
    as it is and calls [Request] not at all. *)
Theorem Logout_fresh_client
    (os : OS) (url caCertPath ak sk : string) (isUseApiKey ignore verify : bool)
    (certFingerprints : list string) (n : nessusImpl) (Request : Request_t) (w : world) :
  newNessus os url caCertPath ak sk isUseApiKey ignore verify certFingerprints
  = Return (Ok n) ->
  Logout Request n w = (None, n, log_Println "Not logged in, nothing to do to logout..." w).
Proof.
  intros Hnew. apply Logout_empty.
  unfold newNessus in Hnew. repeat case_match; simplify_eq; done.
Qed.

(** *** [Request] *)

Lemma substring_all (s : string) : String.substring 0 (String.length s) s = s.
Proof. induction s as [|a s IH]; simpl; [done|]. by rewrite IH. Qed.

Lemma IndexByte_range (s : string) (c : Ascii.ascii) :
  -1 <= IndexByte s c < Z.of_nat (String.length s).
Proof.
  induction s as [|a s IH]; simpl; [lia|].
  destruct (Ascii.eqb a c); [lia|].
  destruct (IndexByte s c =? -1) eqn:Hk; [lia|]. apply Z.eqb_neq in Hk. lia.
Qed.

Lemma IndexByte_split (s : string) (c : Ascii.ascii) :
  IndexByte s c <> -1 ->
  (slice_to s (IndexByte s c) ++ String c (slice_from s (IndexByte s c + 1)))%string = s
  /\ IndexByte (slice_to s (IndexByte s c)) c = -1.
Proof.
  unfold slice_to, slice_from. induction s as [|a s IH]; simpl; [done|].
  destruct (Ascii.eqb a c) eqn:Hac.
  - intros _. apply Ascii.eqb_eq in Hac as ->. simpl.
    by rewrite Nat.sub_0_r, substring_all.
  - pose proof (IndexByte_range s c) as Hr.
    destruct (IndexByte s c =? -1) eqn:Hk; [done|]. apply Z.eqb_neq in Hk. intros _.
    destruct (IH Hk) as [IH1 IH2].
    replace (Z.to_nat (IndexByte s c + 1)) with (S (Z.to_nat (IndexByte s c))) by lia.
    replace (Z.to_nat (IndexByte s c + 1 + 1)) with (S (Z.to_nat (IndexByte s c + 1))) by lia.
    simpl. rewrite Hac, IH2. simpl. split; [|done].
    exact (f_equal (String a) IH1).
Qed.

(** X14. [Request] cuts [resource] at its first ['?']: the part before it,
    which holds no ['?'], becomes the path and the part after it the query,
    so that path, ['?'] and query give [resource] back.  Without a ['?'] the
    whole resource is the path, and the query that [apiURL] was parsed with
    stays. *)
Theorem set_resource_split (resource : string) (u : URL) :
  Scheme (set_resource resource u) = Scheme u
  /\ Host (set_resource resource u) = Host u
  /\ (IndexByte resource question_mark = -1 ->
      Path (set_resource resource u) = resource
      /\ RawQuery (set_resource resource u) = RawQuery u)
  /\ (IndexByte resource question_mark <> -1 ->
      (Path (set_resource resource u) ++ "?" ++ RawQuery (set_resource resource u))%string
      = resource
      /\ IndexByte (Path (set_resource resource u)) question_mark = -1).
Proof.
  unfold set_resource.
  destruct (IndexByte resource question_mark =? -1) eqn:Hk; simpl.
  - apply Z.eqb_eq in Hk. repeat split; done.
  - apply Z.eqb_neq in Hk. repeat split; try done.
    + by destruct (IndexByte_split resource question_mark Hk).
    + by destruct (IndexByte_split resource question_mark Hk).
Qed.

Lemma statusFound_elem_of (code : Z) (wantStatus : list Z) :
  statusFound code wantStatus = true <-> code ∈ wantStatus.
Proof.
  induction wantStatus as [|status rest IH]; simpl.
  - split; [done|]. by intros ?%elem_of_nil.
  - rewrite elem_of_cons. destruct (code =? status) eqn:Hc.
    + apply Z.eqb_eq in Hc. tauto.
    + apply Z.eqb_neq in Hc. rewrite IH. tauto.
Qed.

Lemma requests_log_Println (line : string) (w : world) :
  requests (log_Println line w) = requests w.
Proof. done. Qed.

Lemma Request_Ok_inv
    (net : Net) (n : nessusImpl) (method resource : string) (js : result string string)
    (wantStatus : list Z) (w w' : world) (resp : httpResponse) :
  Request net n method resource js wantStatus w = (Ok resp, w') ->
  exists req,
    buildRequest net n method resource js = Ok req
    /\ Do net (client n) req = Ok resp
    /\ statusFound (StatusCode resp) wantStatus = true
    /\ requests w' = requests w ++ [(method, resource)].
Proof.
  unfold Request. destruct (buildRequest net n method resource js) as [req|e]; [|done].
  destruct (verbose n).
  - destruct (DumpRequest net req) as [db|e]; [|done].
    destruct (Do net (client n) req) as [r|e] eqn:Hdo; [|done].
    destruct (statusFound (StatusCode r) wantStatus) eqn:Hst; simpl.
    + intros [= <- <-]. exists req. repeat split; try done.
      by destruct (DumpResponse net r).
    + by destruct (ReadAll net r).
  - destruct (Do net (client n) req) as [r|e] eqn:Hdo; [|done].
    destruct (statusFound (StatusCode r) wantStatus) eqn:Hst; simpl.
    + intros [= <- <-]. by exists req.
    + by destruct (ReadAll net r).
Qed.

(** X15. [Request] hands back a response only when its status code is one
    of [wantStatus] (never, when [wantStatus] is empty); that response is
    the answer to the one request it has issued, built from its arguments
    and the client's fields. *)
Theorem Request_status
    (net : Net) (n : nessusImpl) (method resource : string) (js : result string string)
    (wantStatus : list Z) (w w' : world) (resp : httpResponse) :
  Request net n method resource js wantStatus w = (Ok resp, w') ->
  StatusCode resp ∈ wantStatus
  /\ wantStatus <> []
  /\ requests w' = requests w ++ [(method, resource)]
  /\ exists req,
       buildRequest net n method resource js = Ok req
       /\ Do net (client n) req = Ok resp.
Proof.
  intros (req & Hb & Hdo & Hst & Hreq)%Request_Ok_inv.
  apply statusFound_elem_of in Hst.
  split; [done|]. split; [by intros ->; apply elem_of_nil in Hst|].
  split; [done|]. by exists req.
Qed.

(** X16. [Request] issues at most one HTTP request per call, and none at
    all (and logs nothing) when the URL cannot be parsed, the body cannot be
    marshalled or the request cannot be made; a client that is not verbose
    logs nothing in any case. *)
Theorem Request_effects
    (net : Net) (n : nessusImpl) (method resource : string) (js : result string string)
    (wantStatus : list Z) (w w' : world) (res : result httpResponse string) :
  Request net n method resource js wantStatus w = (res, w') ->
  (requests w' = requests w \/ requests w' = requests w ++ [(method, resource)])
  /\ (forall err, buildRequest net n method resource js = Err err -> res = Err err /\ w' = w)
  /\ (verbose n = false -> logged w' = logged w).
Proof.
  unfold Request. destruct (buildRequest net n method resource js) as [req|e].
  - destruct (verbose n).
    + destruct (DumpRequest net req) as [db|e]; [|req_fin].
      destruct (Do net (client n) req) as [r|e]; [|req_fin].
      destruct (DumpResponse net r);
        (destruct (statusFound (StatusCode r) wantStatus); simpl;
         [|destruct (ReadAll net r)]); req_fin.
    + destruct (Do net (client n) req) as [r|e]; [|req_fin].
      destruct (statusFound (StatusCode r) wantStatus); simpl;
        [|destruct (ReadAll net r)]; req_fin.
  - intros [= <- <-]. split; [by left|]. split; [|done]. by intros err [= <-].
Qed.


(** *** [Login] and [Logout] over [Request] *)

Lemma buildRequest_cookie
    (net : Net) (n : nessusImpl) (method resource : string) (js : result string string)
    (req : httpRequest) :
  buildRequest net n method resource js = Ok req ->
  authCookie n <> ""%string ->
  reqHeader req !! "X-Cookie"%string = Some [("token=" ++ authCookie n)%string].
Proof.
  unfold buildRequest. destruct (ParseRequestURI net (apiURL n)) as [u|e]; [|done].
  destruct js as [jb|e]; [|done].
  destruct (NewRequest_error net method _); [done|]. intros [= <-] Hc.
  apply String.eqb_neq in Hc. rewrite Hc.
  by destruct (String.eqb (accessKey n) ""), (String.eqb (secretKey n) ""),
    (String.eqb (apiToken n) "").
Qed.

Lemma Logout_None_inv (Request : Request_t) (n n' : nessusImpl) (w w' : world) :
  Logout Request n w = (None, n', w') -> n' = set_authCookie "" n.
Proof.
  unfold Logout. destruct (String.eqb (authCookie n) "") eqn:Hc.
  - apply String.eqb_eq in Hc. intros [= <- <-]. by rewrite set_authCookie_same.
  - destruct (Request n _ _ _ _) as [[err|] w2]; by intros [= <- <-].
Qed.

Lemma Login_None_inv
    (net : Net) (codec : Codec) (username password : string)
    (n n' : nessusImpl) (w w' : world) :
  Login net codec username password n w = (None, n', w') ->
  exists resp token,
    Decode_loginResp codec resp = Ok token
    /\ StatusCode resp = StatusOK
    /\ n' = set_authCookie token n
    /\ requests w' = requests w ++ [("POST", "/session")]%string.
Proof.
  unfold Login.
  destruct (Request net n _ _ _ _ _) as [[resp|e] w1] eqn:Hreq; [|done].
  destruct (Decode_loginResp codec resp) as [token|e] eqn:Hdec; [|done].
  intros [= <- <-]. apply Request_Ok_inv in Hreq as (req & _ & _ & Hst & Hw).
  exists resp, token. repeat split; try done.
  - apply statusFound_elem_of, list_elem_of_singleton in Hst. done.
  - rewrite Hw. by destruct (verbose n).
Qed.

(** X18. [Login] returns nil only when the server has answered the one
    request [POST /session] with status 200 and a reply that decodes; the
    cookie is then the token of that reply and nothing else of the client
    has changed.  When [Login] returns an error the client is as it was. *)
Theorem Login_outcome
    (net : Net) (codec : Codec) (username password : string)
    (n n' : nessusImpl) (w w' : world) (r : option string) :
  Login net codec username password n w = (r, n', w') ->
  (r = None ->
     exists resp token,
       Decode_loginResp codec resp = Ok token
       /\ StatusCode resp = 200
       /\ n' = set_authCookie token n
       /\ requests w' = requests w ++ [("POST", "/session")]%string)
  /\ (r <> None -> n' = n).
Proof.
  intros Hlogin. split.
  - intros ->. by apply Login_None_inv in Hlogin.
  - intros Hr. unfold Login in Hlogin.
    destruct (Request net n _ _ _ _ _) as [[resp|e] w1]; [|by simplify_eq].
    destruct (Decode_loginResp codec resp); by simplify_eq.
Qed.

(** X19. A [Login] and a [Logout] that both return nil bring a client that
    was logged out back to what it was; unless the token was empty, the two
    calls have issued [POST /session] and then [DELETE /session], and
    nothing else. *)
Theorem Login_then_Logout
    (net : Net) (codec : Codec) (username password : string)
    (n n1 n2 : nessusImpl) (w w1 w2 : world) :
  authCookie n = ""%string ->
  Login net codec username password n w = (None, n1, w1) ->
  Logout (Request_nil net) n1 w1 = (None, n2, w2) ->
  n2 = n
  /\ (authCookie n1 <> ""%string ->
      requests w2 = requests w ++ [("POST", "/session"); ("DELETE", "/session")]%string).
Proof.
  intros Hc (resp & token & _ & _ & -> & Hw1)%Login_None_inv Hout.
  pose proof (Logout_None_inv _ _ _ _ _ Hout) as ->. split.
  - destruct n. simpl in *. by subst.
  - intros Hne. unfold Logout in Hout. apply String.eqb_neq in Hne. rewrite Hne in Hout.
    unfold Request_nil in Hout.
    destruct (Request net _ _ _ _ _ _) as [[r|e] w3] eqn:Hreq; [|done].
    injection Hout as <-. apply Request_Ok_inv in Hreq as (req & _ & _ & _ & Hw3).
    rewrite Hw3. destruct (verbose _); simpl; rewrite Hw1, <- app_assoc; done.
Qed.

(** X20. [Logout] of a client that has a cookie issues at most the one
    request [DELETE /session]; it returns nil only when that request, which
    carries the cookie in [X-Cookie], was answered with status 200. *)
Theorem Logout_sends_delete (net : Net) (n n' : nessusImpl) (w w' : world) (r : option string) :
  authCookie n <> ""%string ->
  Logout (Request_nil net) n w = (r, n', w') ->
  (requests w' = requests w
   \/ requests w' = requests w ++ [("DELETE", "/session")]%string)
  /\ (r = None ->
      exists req resp,
        buildRequest net n "DELETE" "/session" (Ok "null"%string) = Ok req
        /\ reqHeader req !! "X-Cookie"%string = Some [("token=" ++ authCookie n)%string]
        /\ Do net (client n) req = Ok resp
        /\ StatusCode resp = 200
        /\ requests w' = requests w ++ [("DELETE", "/session")]%string).
Proof.
  intros Hne Hout. unfold Logout in Hout.
  pose proof Hne as Hc. apply String.eqb_neq in Hc. rewrite Hc in Hout.
  unfold Request_nil in Hout.
  destruct (Request net n _ _ _ _ _) as [[resp|e] w3] eqn:Hreq.
  - injection Hout as <- <- <-.
    apply Request_Ok_inv in Hreq as (req & Hb & Hdo & Hst & Hw3).
    assert (requests w3 = requests w ++ [("DELETE", "/session")]%string) as Hw
      by (rewrite Hw3; by destruct (verbose n)).
    split; [by right|]. intros _. exists req, resp. repeat split; try done.
    + by apply (buildRequest_cookie _ _ _ _ _ _ Hb).
    + by apply statusFound_elem_of, list_elem_of_singleton in Hst.
  - injection Hout as <- <- <-. split; [|done].
    unfold Request in Hreq.
    destruct (buildRequest net n _ _ _) as [req|e0];
      [|simplify_eq; destruct (verbose n); by left].
    destruct (verbose n).
    + destruct (DumpRequest net req); [|simplify_eq; by left].
      destruct (Do net (client n) req) as [resp|e1]; [|simplify_eq; by right].
      destruct (DumpResponse net resp);
        (destruct (statusFound (StatusCode resp) [StatusOK]); simpl in Hreq;
         [|destruct (ReadAll net resp)]); simplify_eq; by right.
    + destruct (Do net (client n) req) as [resp|e1]; [|simplify_eq; by right].
      destruct (statusFound (StatusCode resp) [StatusOK]); simpl in Hreq;
        [|destruct (ReadAll net resp)]; simplify_eq; by right.
Qed.

(** *** The fingerprint check *)

Lemma fingerprint_listed_elem_of (peerFingerprint : string) (certFingerprints : list string) :
  fingerprint_listed peerFingerprint certFingerprints = true
  <-> peerFingerprint ∈ certFingerprints.
Proof.
  induction certFingerprints as [|fingerprint rest IH]; simpl.
  - split; [done|]. by intros ?%elem_of_nil.
  - rewrite elem_of_cons. destruct (String.eqb peerFingerprint fingerprint) eqn:Hf.
    + apply String.eqb_eq in Hf. tauto.
    + apply String.eqb_neq in Hf. rewrite IH. tauto.
Qed.

(** X21. The dial function made for a list of fingerprints hands out a
    connection only when [tls.Dial] succeeded and the fingerprint of the
    first certificate of the peer is in the list; it has then closed
    nothing. *)
Theorem dial_accepts_listed
    (tls : Tls) (certFingerprints : list string) (config : tlsConfig)
    (network addr : string) (conn : Conn tls) (closed : list (Conn tls)) :
  createDialTLSFuncToVerifyFingerprint tls certFingerprints config network addr
  = (Dialed (Ok conn), closed) ->
  Dial tls network addr config = Ok conn
  /\ closed = []
  /\ exists spki rest,
       PeerCertificates tls conn = spki :: rest
       /\ sha256Fingerprint tls spki ∈ certFingerprints.
Proof.
  unfold createDialTLSFuncToVerifyFingerprint.
  destruct (Dial tls network addr config) as [c|e]; [|done].
  destruct (PeerCertificates tls c) as [|spki rest] eqn:Hcerts; [done|].
  destruct (fingerprint_listed _ _) eqn:Hl; [|done].
  intros [= -> <-]. repeat split. exists spki, rest. split; [done|].
  by apply fingerprint_listed_elem_of.
Qed.

(** X22. When the fingerprint of the first certificate of the peer is not
    in the list, the dial function closes the connection and returns the
    error, whatever the other certificates of the chain are. *)
Theorem dial_rejects_unlisted
    (tls : Tls) (certFingerprints : list string) (config : tlsConfig)
    (network addr : string) (conn : Conn tls) (spki : string) (rest : list string) :
  Dial tls network addr config = Ok conn ->
  PeerCertificates tls conn = spki :: rest ->
  sha256Fingerprint tls spki ∉ certFingerprints ->
  createDialTLSFuncToVerifyFingerprint tls certFingerprints config network addr
  = (Dialed (Err ("no server certificate with fingerprints ["
                  ++ String.concat " " certFingerprints ++ "] was found")%string),
     [conn]).
Proof.
  intros Hdial Hcerts Hnot. unfold createDialTLSFuncToVerifyFingerprint.
  rewrite Hdial, Hcerts.
  destruct (fingerprint_listed _ _) eqn:Hl; [|done].
  by apply fingerprint_listed_elem_of in Hl.
Qed.

(** X24. A client made by [NewFingerprintedNessus] has a fingerprint list
    that is not empty, skips the usual certificate verification, and its
    dial function, run with the client's own TLS configuration, hands out
    connections only to servers whose first certificate has a listed
    fingerprint. *)
Theorem NewFingerprintedNessus_pins
    (os : OS) (url : string) (certFingerprints : list string) (n : nessusImpl) :
  NewFingerprintedNessus os url certFingerprints = Return (Ok n) ->
  certFingerprints <> []
  /\ DialTLS (client n) = Some certFingerprints
  /\ InsecureSkipVerify (TLSClientConfig (client n)) = true
  /\ forall (tls : Tls) network addr conn closed,
       createDialTLSFuncToVerifyFingerprint tls certFingerprints
         (TLSClientConfig (client n)) network addr = (Dialed (Ok conn), closed) ->
       exists spki rest,
         PeerCertificates tls conn = spki :: rest
         /\ sha256Fingerprint tls spki ∈ certFingerprints.
Proof.
  unfold NewFingerprintedNessus, newNessus. simpl.
  destruct certFingerprints as [|fingerprint rest]; [done|]. simpl.
  destruct (getApiToken _ _ _); [|done]. intros [= <-]. simpl.
  repeat split; try done.
  intros tls network addr conn closed. unfold createDialTLSFuncToVerifyFingerprint.
  destruct (Dial tls network addr _) as [c|e]; [|done].
  destruct (PeerCertificates tls c) as [|spki certs] eqn:Hcerts; [done|].
  destruct (fingerprint_listed _ _) eqn:Hl; [|done].
  intros [= -> <-]. exists spki, certs. split; [done|].
  by apply fingerprint_listed_elem_of.
Qed.

End ClientMore.

(** ** The further theorems on the small remote sides *)

Section MoreWitnesses.

Import Demo Client Http.

Ltac by_running sched := exists sched; vm_compute; reflexivity.
Ltac by_computing := vm_compute; reflexivity.

Lemma AllPlugins_runs_are_finite_witness :
  (length family_fails_sched <=
   29 + sum_list_with
          (fun family => 5 + 7 * length (ids_of_family family_fails (PluginFamily_ID family)))
          (listed_families family_fails))%nat.
Proof.
  apply (AllPlugins_runs_are_finite family_fails family_fails_sched family_fails_end).
  by_computing.
Defined.


Lemma AllPlugins_bounded_buffers_witness :
  (length (Chan.buf (idChan leaf_fails_sending)) <= 20)%nat
  /\ (length (Chan.buf (plugChan leaf_fails_sending)) <= 20)%nat
  /\ (length (held_records leaf_fails_sending) <= 10)%nat.
Proof.
  apply (AllPlugins_bounded_buffers leaf_fails leaf_fails_sending).
  by_running leaf_fails_sending_sched.
Defined.

Lemma AllPlugins_caller_must_read_witness :
  (length (ok_ids all_succeed) <= length (received all_succeed_end) + 20)%nat.
Proof.
  apply (AllPlugins_caller_must_read all_succeed all_succeed_end).
  - by_running all_succeed_sched.
  - by_computing.
Defined.

Lemma AllPlugins_add_before_wait_witness :
  (closer leaf_fails_sending <> CNone -> wgf leaf_fails_sent <= wgf leaf_fails_sending)
  /\ ((2 <= closer_rank (closer leaf_fails_sending))%nat ->
      wgp leaf_fails_sent <= wgp leaf_fails_sending).
Proof.
  apply (AllPlugins_add_before_wait leaf_fails (TFam 0) leaf_fails_sending leaf_fails_sent).
  - by_running leaf_fails_sending_sched.
  - by_computing.
Defined.

Lemma AllPlugins_emitted_multiset_witness :
  emitted leaf_fails_end ⊆+ expected leaf_fails
  /\ (Chan.closed (plugChan leaf_fails_end) = true ->
      emitted leaf_fails_end ≡ₚ expected leaf_fails).
Proof.
  apply (AllPlugins_emitted_multiset leaf_fails leaf_fails_end).
  by_running leaf_fails_sched.
Defined.

Lemma AllPlugins_counters_witness :
  wgf leaf_fails_sending
  = Z.of_nat (sum_list_with fam_live (fams leaf_fails_sending)
              + main_live (main leaf_fails_sending))
  /\ wgp leaf_fails_sending
     = Z.of_nat (sum_list_with fam_owes (fams leaf_fails_sending)
                 + length (Chan.buf (idChan leaf_fails_sending))
                 + sum_list_with worker_owes (workers leaf_fails_sending)).
Proof.
  apply (AllPlugins_counters leaf_fails leaf_fails_sending).
  by_running leaf_fails_sending_sched.
Defined.

Lemma AllPlugins_returns_at_once_witness :
  exec family_fails (replicate 19 TMain) init
  = Next (State (MDone RetChan) [FStart 1; FStart 2] (replicate 10 WRecv) CWaitF
                2 0 (Chan.make 20) (Chan.make 20) []).
Proof.
  apply (AllPlugins_returns_at_once family_fails [1; 2]). reflexivity.
Defined.


Lemma Logout_clears_or_keeps_witness :
  (logout_result.1.1 = None ->
     logout_result.1.2 = set_authCookie "" login_result.1.2
     /\ forall Request' w2,
          Logout Request' logout_result.1.2 w2
          = (None, logout_result.1.2,
             log_Println "Not logged in, nothing to do to logout..." w2))
  /\ (logout_result.1.1 <> None -> logout_result.1.2 = login_result.1.2).
Proof.
  apply (Logout_clears_or_keeps (Request_nil demo_net) login_result.1.2 logout_result.1.2
           login_result.2 logout_result.2 logout_result.1.1).
  by_computing.
Defined.

Lemma newNessus_client_witness :
  RootCAs (TLSClientConfig (client ca_client)) = None
  /\ InsecureSkipVerify (TLSClientConfig (client ca_client)) = false
  /\ DialTLS (client ca_client) = None
  /\ authCookie ca_client = ""%string /\ verbose ca_client = false
  /\ apiURL ca_client = "https://nessus.example:8834"%string
  /\ accessKey ca_client = ""%string /\ secretKey ca_client = ""%string.
Proof.
  apply (newNessus_client demo_os "https://nessus.example:8834" "/etc/nessus/ca.pem"
           "" "" false false false [] ca_client).
  by_computing.
Defined.

Lemma newNessus_errors_witness :
  ("/etc/nessus/empty.pem"%string <> ""%string
   /\ (ReadFile demo_os "/etc/nessus/empty.pem"
       = Err "could not append certs from PEM /etc/nessus/empty.pem"%string
       \/ exists rootPEM,
            ReadFile demo_os "/etc/nessus/empty.pem" = Ok rootPEM
            /\ AppendCertsFromPEM demo_os rootPEM = false
            /\ "could not append certs from PEM /etc/nessus/empty.pem"%string
               = ("could not append certs from PEM " ++ "/etc/nessus/empty.pem")%string))
  \/ ("/etc/nessus/empty.pem"%string = ""%string /\ false = true /\ @nil string = []
      /\ "could not append certs from PEM /etc/nessus/empty.pem"%string
         = "fingerprint verification enabled, fingerprint must not be empty"%string).
Proof.
  apply (newNessus_errors demo_os "https://nessus.example:8834" "/etc/nessus/empty.pem"
           "" "" false false false []).
  by_computing.
Defined.

Lemma newNessus_unreachable_witness :
  NewInsecureNessus unreachable_os "https://nessus.example:8834" = Fatal.
Proof.
  apply (newNessus_unreachable unreachable_os "https://nessus.example:8834"
           "dial tcp: connection refused").
  intros c. reflexivity.
Defined.

Lemma Logout_fresh_client_witness :
  Logout recording_Request ca_client quiet_world
  = (None, ca_client, log_Println "Not logged in, nothing to do to logout..." quiet_world).
Proof.
  apply (Logout_fresh_client demo_os "https://nessus.example:8834" "/etc/nessus/ca.pem"
           "" "" false false false []).
  by_computing.
Defined.

Lemma Request_status_witness :
  StatusCode {| StatusCode := 200; Body := "" |} ∈ [200]
  /\ [200] <> []
  /\ requests delete_session.2 = requests quiet_world ++ [("DELETE", "/session")]%string
  /\ exists req,
       buildRequest demo_net logged_in "DELETE" "/session" (Ok "null"%string) = Ok req
       /\ Do demo_net (client logged_in) req = Ok {| StatusCode := 200; Body := "" |}.
Proof.
  apply (Request_status demo_net logged_in "DELETE" "/session" (Ok "null"%string) [200]
           quiet_world delete_session.2 {| StatusCode := 200; Body := "" |}).
  by_computing.
Defined.

Lemma Request_effects_witness :
  (requests get_scans.2 = requests quiet_world
   \/ requests get_scans.2 = requests quiet_world ++ [("GET", "/scans?folder_id=3")]%string)
  /\ (forall err,
        buildRequest demo_net logged_in "GET" "/scans?folder_id=3" (Ok "null"%string)
        = Err err ->
        get_scans.1 = Err err /\ get_scans.2 = quiet_world)
  /\ (verbose logged_in = false -> logged get_scans.2 = logged quiet_world).
Proof.
  apply (Request_effects demo_net logged_in "GET" "/scans?folder_id=3" (Ok "null"%string)
           [200] quiet_world get_scans.2 get_scans.1).
  by_computing.
Defined.


Lemma Login_outcome_witness :
  (login_result.1.1 = None ->
     exists resp token,
       Decode_loginResp demo_codec resp = Ok token
       /\ StatusCode resp = 200
       /\ login_result.1.2 = set_authCookie token logged_out
       /\ requests login_result.2 = requests quiet_world ++ [("POST", "/session")]%string)
  /\ (login_result.1.1 <> None -> login_result.1.2 = logged_out).
Proof.
  apply (Login_outcome demo_net demo_codec "admin" "hunter2" logged_out login_result.1.2
           quiet_world login_result.2 login_result.1.1).
  by_computing.
Defined.

Lemma Login_then_Logout_witness :
  logout_result.1.2 = logged_out
  /\ (authCookie login_result.1.2 <> ""%string ->
      requests logout_result.2
      = requests quiet_world ++ [("POST", "/session"); ("DELETE", "/session")]%string).
Proof.
  apply (Login_then_Logout demo_net demo_codec "admin" "hunter2" logged_out
           login_result.1.2 logout_result.1.2 quiet_world login_result.2 logout_result.2).
  - reflexivity.
  - by_computing.
  - by_computing.
Defined.

Lemma Logout_sends_delete_witness :
  (requests logout_result.2 = requests login_result.2
   \/ requests logout_result.2 = requests login_result.2 ++ [("DELETE", "/session")]%string)
  /\ (logout_result.1.1 = None ->
      exists req resp,
        buildRequest demo_net login_result.1.2 "DELETE" "/session" (Ok "null"%string) = Ok req
        /\ reqHeader req !! "X-Cookie"%string
           = Some [("token=" ++ authCookie login_result.1.2)%string]
        /\ Do demo_net (client login_result.1.2) req = Ok resp
        /\ StatusCode resp = 200
        /\ requests logout_result.2
           = requests login_result.2 ++ [("DELETE", "/session")]%string).
Proof.
  apply (Logout_sends_delete demo_net login_result.1.2 logout_result.1.2
           login_result.2 logout_result.2 logout_result.1.1).
  - discriminate.
  - by_computing.
Defined.

Lemma dial_accepts_listed_witness :
  Dial demo_tls "tcp" "nessus.example:8834" insecure_config = Ok 1%nat
  /\ @nil nat = []
  /\ exists spki rest,
       PeerCertificates demo_tls 1%nat = spki :: rest
       /\ sha256Fingerprint demo_tls spki ∈ ["b64:sha256:spki-nessus"%string].
Proof.
  apply (dial_accepts_listed demo_tls ["b64:sha256:spki-nessus"%string] insecure_config
           "tcp" "nessus.example:8834" 1%nat []).
  by_computing.
Defined.

Lemma dial_rejects_unlisted_witness :
  createDialTLSFuncToVerifyFingerprint demo_tls ["b64:sha256:spki-nessus"%string]
    insecure_config "tcp" "evil.example:8834"
  = (Dialed (Err "no server certificate with fingerprints [b64:sha256:spki-nessus] was found"%string),
     [2%nat]).
Proof.
  apply (dial_rejects_unlisted demo_tls ["b64:sha256:spki-nessus"%string] insecure_config
           "tcp" "evil.example:8834" 2%nat "spki-evil" ["spki-nessus"%string]).
  - reflexivity.
  - reflexivity.
  - intros Hin. apply list_elem_of_singleton in Hin. discriminate Hin.
Defined.

Lemma NewFingerprintedNessus_pins_witness :
  DialTLS (client pinned_client) = Some ["b64:sha256:spki-nessus"%string]
  /\ InsecureSkipVerify (TLSClientConfig (client pinned_client)) = true.
Proof.
  destruct (NewFingerprintedNessus_pins demo_os "https://nessus.example:8834"
              ["b64:sha256:spki-nessus"%string] pinned_client ltac:(by_computing))
    as (_ & Hdial & Hskip & _).
  exact (conj Hdial Hskip).
Defined.

End MoreWitnesses.
